(** * twitter-to-discord: the tweet handler and the Twitter stream client

    A shallow embedding of [tweetHandler.js] (the post pipeline, the
    dedup window, the deletion handler) and of [bin/twitterClient.js]
    (the stream event handlers, [connect], [close], [removeOldFiles]),
    followed by the properties proved about them.

    Conventions of the embedding:
    - a JavaScript string is a [string]; one [ascii] stands for one code
      unit (code units above 255 are outside the model);
    - a JavaScript array is a [list]; [push] appends at the end, [shift]
      drops the head;
    - the module-level variables ([utils.ids], [utils.reload],
      [recentTweets], the connection of the [twitter] object) are the
      fields of one [World] record, threaded through every handler
      together with the chronological trace of the calls made to the
      collaborators;
    - a handler is a computation of the [Js] monad; it completes
      normally, by a thrown exception, or by [process.exit];
    - a callback or promise continuation runs right after the code that
      registered it, in the order the code fixes where it fixes one;
    - the collaborators that live outside the two files (the database
      models, [discordClient], [utils.promiseSome], the transport, the
      file system, the clock, the entity decoder) are the fields of an
      [Env] record: each gives the outcome of one external call. *)

From Stdlib Require Import String Ascii List ZArith Bool Lia PeanoNat.
From Stdlib Require Import DecimalString.
Import ListNotations.

Local Open Scope list_scope.
Local Open Scope string_scope.

(** ** JavaScript primitives used by the two files *)

Module JS.

(** [Array.prototype.includes] on an array of strings. *)
Definition includes (x : string) (xs : list string) : bool :=
  existsb (String.eqb x) xs.

(** [Array.prototype.push]: append at the end. *)
Definition push {A : Type} (xs : list A) (x : A) : list A := (xs ++ [x])%list.

(** [Array.prototype.shift]: remove the first element. *)
Definition shift {A : Type} (xs : list A) : list A := tl xs.

(** Truthiness of a string: only the empty string is falsy. *)
Definition truthy (s : string) : bool :=
  match s with
  | EmptyString => false
  | String _ _ => true
  end.

(** The first [n] code units of a string, and the string without them. *)
Fixpoint take (n : nat) (s : string) : string :=
  match n, s with
  | O, _ => EmptyString
  | S _, EmptyString => EmptyString
  | S n', String c s' => String c (take n' s')
  end.

Fixpoint drop (n : nat) (s : string) : string :=
  match n, s with
  | O, _ => s
  | S _, EmptyString => EmptyString
  | S n', String _ s' => drop n' s'
  end.

(** [String.prototype.startsWith]. *)
Fixpoint startsWith (pat s : string) : bool :=
  match pat, s with
  | EmptyString, _ => true
  | String _ _, EmptyString => false
  | String a pat', String b s' => Ascii.eqb a b && startsWith pat' s'
  end.

(** [String.prototype.indexOf]: position of the first occurrence. *)
Fixpoint indexOf (pat s : string) : option nat :=
  if startsWith pat s then Some O
  else match s with
       | EmptyString => None
       | String _ s' => option_map S (indexOf pat s')
       end.

(** Number of positions of [s] at which [pat] occurs. *)
Fixpoint occurrences (pat s : string) : nat :=
  (if startsWith pat s then 1 else 0) +
  match s with
  | EmptyString => 0
  | String _ s' => occurrences pat s'
  end.

(** The abstract operation GetSubstitution of ECMAScript for a string
    pattern (no captures, no named groups): in the replacement template
    [$$] stands for a dollar sign, [$&] for the matched text, [$`] for
    the text before the match and [$'] for the text after it; every
    other dollar sign is literal. *)
Fixpoint GetSubstitution (matched before after template : string) : string :=
  match template with
  | EmptyString => EmptyString
  | String a t =>
      if Ascii.eqb a "$" then
        match t with
        | EmptyString => String a EmptyString
        | String c rest =>
            if Ascii.eqb c "$" then
              String "$" (GetSubstitution matched before after rest)
            else if Ascii.eqb c "&" then
              matched ++ GetSubstitution matched before after rest
            else if Ascii.eqb c "`" then
              before ++ GetSubstitution matched before after rest
            else if Ascii.eqb c "'" then
              after ++ GetSubstitution matched before after rest
            else String a (GetSubstitution matched before after t)
        end
      else String a (GetSubstitution matched before after t)
  end.

(** Whether a dollar sign occurs in a string. *)
Fixpoint hasDollar (s : string) : bool :=
  match s with
  | EmptyString => false
  | String c s' => Ascii.eqb c "$" || hasDollar s'
  end.

(** [String.prototype.replace] with a string pattern: only the first
    occurrence is replaced; without an occurrence the string is
    returned as it is. *)
Definition replace (s pat replacement : string) : string :=
  match indexOf pat s with
  | None => s
  | Some i =>
      let before := take i s in
      let after := drop (i + String.length pat) s in
      before ++ GetSubstitution pat before after replacement ++ after
  end.

(** White space and line terminators among the code units of the model
    (TAB, LF, VT, FF, CR, SP, NBSP). *)
Definition isWhiteSpace (c : ascii) : bool :=
  let n := nat_of_ascii c in
  (Nat.eqb n 9 || Nat.eqb n 10 || Nat.eqb n 11 || Nat.eqb n 12 ||
   Nat.eqb n 13 || Nat.eqb n 32 || Nat.eqb n 160)%bool.

Fixpoint trimStart (s : string) : string :=
  match s with
  | EmptyString => EmptyString
  | String c s' => if isWhiteSpace c then trimStart s' else s
  end.

Fixpoint trimEnd (s : string) : string :=
  match s with
  | EmptyString => EmptyString
  | String c s' =>
      match trimEnd s' with
      | EmptyString => if isWhiteSpace c then EmptyString else String c EmptyString
      | r => String c r
      end
  end.

(** [String.prototype.trim]. *)
Definition trim (s : string) : string := trimEnd (trimStart s).

(** The line feed of a template literal. *)
Definition LF : string := String (ascii_of_nat 10) EmptyString.

End JS.

(** ** Data model *)

(** What can be thrown, or be the reason of a rejected promise. *)
Inductive JsError : Type :=
| TypeError (what : string)
| ExternalError (what : string).

(** The state of a promise once it has settled. *)
Inductive Settled (A : Type) : Type :=
| Resolved (a : A)
| Rejected (e : JsError).
Arguments Resolved {A} a.
Arguments Rejected {A} e.

(** The fields of the streamed objects that the handler reads. *)
Record User : Type := mkUser {
  user_id_str : string;
  screen_name : string
}.

Record Variant : Type := mkVariant { variant_url : string }.

Record VideoInfo : Type := mkVideoInfo { variants : list Variant }.

Record Media : Type := mkMedia {
  type : string;
  url : string;
  media_url_https : string;
  video_info : option VideoInfo
}.

Record Entities : Type := mkEntities { media : list Media }.

Record ExtendedTweet : Type := mkExtendedTweet {
  full_text : string;
  ext_extended_entities : option Entities
}.

(** A tweet; [retweeted_status] holds a tweet again. A field that the
    handler tests for presence is an [option]. *)
#[local] Set Warnings "-register-all".
Inductive Tweet : Type := mkTweet {
  id_str : string;
  user : User;
  text : string;
  truncated : bool;
  in_reply_to_user_id_str : option string;
  extended_tweet : option ExtendedTweet;
  extended_entities : option Entities;
  retweeted_status : option Tweet
}.

(** A deletion notice: [{ delete: { status: { id_str, ... } } }]. *)
Record DeleteStatus : Type := mkDeleteStatus { status_id_str : string }.

Record Delete : Type := mkDelete { status : option DeleteStatus }.

(** What the stream (or the manual channel) hands to the handler: an
    object with a [delete] property, a tweet (no [delete]), or any
    other message of the stream (a warning, a limit notice: neither
    [delete] nor [user]). *)
Inductive Payload : Type :=
| Deletion (d : Delete)
| Post (t : Tweet)
| Other.

(** An entry of [mediaUrls]: [{ image }] or [{ video, image }]. *)
Record MediaEntry : Type := mkMediaEntry {
  video : option string;
  image : string
}.

(** Records of the two database models. *)
Record Message : Type := mkMessage {
  channel_id : string;
  message_id : string
}.

Record TweetRecord : Type := mkTweetRecord { messages : option (list Message) }.

Record Feed : Type := mkFeed { twitter_id : string }.

(** ** Calls to the collaborators, and the world *)

Inductive Level : Type := Log | Warn | Err.

Inductive Logged : Type :=
| LStr (s : string)
| LNum (z : Z)
| LErr (e : JsError)
| LNull.

(** Every call that leaves the two files, in the order it is made. The
    output of [debug] is left out. *)
Inductive Call : Type :=
| Console (l : Level) (args : list Logged)
| WriteFileSync (path : string) (data : Tweet)
| DiscordSend (tweet : Tweet) (str : string)
| PromiseSome (n : nat)
| FindOne (tweet_id : string)
| Fetch (uri method authorization : string)
| FeedsFind
| TwitterClose
| TwitterStream (endpoint : string) (follow : list string) (stall_warnings : bool)
| Readdir (folder : string)
| Stat (path : string)
| Unlink (path : string)
| UnhandledRejection (e : JsError).

(** [twitter.connection], with whether its [request] is set. *)
Record Connection : Type := mkConnection { request : bool }.

Record World : Type := mkWorld {
  (* utils.ids: the twitter ids being streamed *)
  utils_ids : list string;
  (* utils.reload *)
  utils_reload : bool;
  (* the const recentTweets of tweetHandler.js *)
  recentTweets : list string;
  (* twitter.connection *)
  twitter_connection : option Connection;
  (* the calls made so far, oldest first *)
  trace : list Call
}.

(** The outcome of each external call. *)
Record Env : Type := mkEnv {
  (* htmlEntities.decode *)
  decode : string -> string;
  (* fs.writeFileSync: what it throws, if it throws *)
  writeFileSync : string -> option JsError;
  (* utils.promiseSome on the settled media promises *)
  promiseSome : list (Settled unit) -> Settled unit;
  (* discordClient.send: what it throws, if it throws *)
  send : Tweet -> string -> option JsError;
  (* TweetsModel.findOne({ tweet_id }) *)
  findOne : string -> Settled (option TweetRecord);
  (* fetch(uri, { method: 'DELETE', ... }) *)
  fetch : string -> Settled unit;
  (* process.env.DISCORD_BOT_TOKEN *)
  DISCORD_BOT_TOKEN : string;
  (* FeedsModel.find() *)
  feedsFind : Settled (list Feed);
  (* twitter.close() and twitter.stream(): the connection they leave *)
  transportClose : option Connection -> option Connection;
  transportStream : list string -> option Connection -> option Connection;
  (* twitter.stream(): what it throws, if it throws *)
  streamThrows : list string -> option JsError;
  (* fs.readdir, fs.stat (the ctime in ms), fs.unlink *)
  readdir : string -> JsError + list string;
  stat : string -> JsError + Z;
  unlink : string -> option JsError;
  (* new Date().getTime() in the stat callback of a path *)
  now : string -> Z
}.

(** ** The monad of the handlers: state, exceptions, process exit *)

Inductive Completion (A : Type) : Type :=
| Normal (a : A)
| Throw (e : JsError)
| Exit (code : Z).
Arguments Normal {A} a.
Arguments Throw {A} e.
Arguments Exit {A} code.

Definition Js (A : Type) : Type := World -> Completion A * World.

Definition ret {A : Type} (a : A) : Js A := fun w => (Normal a, w).

Definition bind {A B : Type} (m : Js A) (k : A -> Js B) : Js B :=
  fun w =>
    match m w with
    | (Normal a, w') => k a w'
    | (Throw e, w') => (Throw e, w')
    | (Exit c, w') => (Exit c, w')
    end.

Declare Scope js_scope.
Delimit Scope js_scope with js.
Notation "x <- m ;; k" := (bind m (fun x => k))
  (at level 61, m at next level, right associativity) : js_scope.
Notation "m ;; k" := (bind m (fun _ => k))
  (at level 61, right associativity) : js_scope.
Local Open Scope js_scope.

Definition throw {A : Type} (e : JsError) : Js A := fun w => (Throw e, w).

Definition process_exit {A : Type} (code : Z) : Js A := fun w => (Exit code, w).

Definition get : Js World := fun w => (Normal w, w).

Definition liftC {A : Type} (c : Completion A) : Js A := fun w => (c, w).

(** The world after the calls [cs] have been made. *)
Definition emit (cs : list Call) (w : World) : World :=
  mkWorld (utils_ids w) (utils_reload w) (recentTweets w)
          (twitter_connection w) (trace w ++ cs)%list.

Definition call (c : Call) : Js unit := fun w => (Normal tt, emit [c] w).

Definition set_ids (ids : list string) : Js unit :=
  fun w => (Normal tt,
            mkWorld ids (utils_reload w) (recentTweets w)
                    (twitter_connection w) (trace w)).

Definition set_reload (b : bool) : Js unit :=
  fun w => (Normal tt,
            mkWorld (utils_ids w) b (recentTweets w)
                    (twitter_connection w) (trace w)).

Definition set_recentTweets (r : list string) : Js unit :=
  fun w => (Normal tt,
            mkWorld (utils_ids w) (utils_reload w) r
                    (twitter_connection w) (trace w)).

Definition set_connection (c : option Connection) : Js unit :=
  fun w => (Normal tt,
            mkWorld (utils_ids w) (utils_reload w) (recentTweets w)
                    c (trace w)).

(** [xs.forEach(f)]; an exception of [f] ends the loop. *)
Fixpoint forEach {A : Type} (f : A -> Js unit) (xs : list A) : Js unit :=
  match xs with
  | [] => ret tt
  | x :: xs' => f x ;; forEach f xs'
  end.

(** [p.then(f).catch(g)] for a promise settled as [p]: [g] runs when [p]
    is rejected and also when [f] throws; nothing awaits the chain, so
    an exception leaving [g] is an unhandled rejection and the caller
    goes on. *)
Definition unhandled (m : Js unit) : Js unit :=
  fun w =>
    match m w with
    | (Throw e, w') => call (UnhandledRejection e) w'
    | r => r
    end.

Definition then_catch {A : Type} (p : Settled A)
           (f : A -> Js unit) (g : JsError -> Js unit) : Js unit :=
  match p with
  | Resolved a =>
      fun w =>
        match f a w with
        | (Throw e, w') => unhandled (g e) w'
        | r => r
        end
  | Rejected e => unhandled (g e)
  end.

(** ** tweetHandler.js *)

Module TweetHandler.

(** Lines 44-47: [recentTweets.push(id)], then [shift()] when the
    length is above 20. *)
Definition remember (recent : list string) (id : string) : list string :=
  let recent' := JS.push recent id in
  if Nat.ltb 20 (List.length recent') then JS.shift recent' else recent'.

(** Lines 39-48, on the window alone: [None] when the id was recently
    processed (the handler returns), else the window after the push. *)
Definition dedup (recent : list string) (id : string) : option (list string) :=
  if JS.includes id recent then None else Some (remember recent id).

(** The window after a run of ids, duplicates being rejected. *)
Definition dedupAll (recent : list string) (ids : list string) : list string :=
  fold_left (fun r id => match dedup r id with Some r' => r' | None => r end)
            ids recent.

(** Line 52: the name of the archive file. *)
Definition archivePath (tweet : Tweet) (manual : bool) : string :=
  "./tweets/" ++ screen_name (user tweet) ++ "-" ++ id_str tweet
    ++ (if manual then "-man" else "") ++ ".json".

(** Line 56: a reply to somebody else. *)
Definition nonSelfReply (tweet : Tweet) : bool :=
  match in_reply_to_user_id_str tweet with
  | None => false
  | Some r => JS.truthy r && negb (String.eqb r (user_id_str (user tweet)))
  end.

(** Line 63: [tweet.retweeted_status || tweet]. *)
Definition context (tweet : Tweet) : Tweet :=
  match retweeted_status tweet with
  | Some rt => rt
  | None => tweet
  end.

(** Lines 64-73: [text] and [extendedEntities]. Reading [full_text] of
    a missing [extended_tweet] throws. *)
Definition selectText (tweet : Tweet) : Completion (string * option Entities) :=
  if truncated tweet then
    match extended_tweet (context tweet) with
    | None => Throw (TypeError "context.extended_tweet is undefined")
    | Some ext => Normal (full_text ext, ext_extended_entities ext)
    end
  else Normal (text (context tweet), extended_entities (context tweet)).

(** The three variables the two media loops update. *)
Record Extraction : Type := mkExtraction {
  mediaUrls : list MediaEntry;
  escapedUrls : list string;
  modifiedText : string
}.

(** Lines 93-96 and 111-114: wrap the media url in [<>], once. *)
Definition escape (u : string) (x : Extraction) : Extraction :=
  if negb (JS.includes u (escapedUrls x)) then
    mkExtraction (mediaUrls x) (JS.push (escapedUrls x) u)
                 (JS.replace (modifiedText x) u ("<" ++ u ++ ">"))
  else x.

(** Lines 87-97: the body of the first [forEach]. *)
Definition photo (x : Extraction) (m : Media) : Extraction :=
  escape (url m)
         (mkExtraction (JS.push (mediaUrls x) (mkMediaEntry None (media_url_https m)))
                       (escapedUrls x) (modifiedText x)).

(** Lines 101-115: the body of the second [forEach];
    [media.video_info.variants[0].url] throws without a first variant. *)
Definition animated_gif (x : Extraction) (m : Media) : Completion Extraction :=
  match video_info m with
  | None => Throw (TypeError "media.video_info is undefined")
  | Some vi =>
      match variants vi with
      | [] => Throw (TypeError "media.video_info.variants[0] is undefined")
      | v :: _ =>
          Normal (escape (url m)
                    (mkExtraction
                       (JS.push (mediaUrls x)
                                (mkMediaEntry (Some (variant_url v)) (media_url_https m)))
                       (escapedUrls x) (modifiedText x)))
      end
  end.

Fixpoint gifs (x : Extraction) (ms : list Media) : Completion Extraction :=
  match ms with
  | [] => Normal x
  | m :: ms' =>
      match animated_gif x m with
      | Normal x' => gifs x' ms'
      | other => other
      end
  end.

(** Lines 80-116. *)
Definition extract (extendedEntities : option Entities) (decoded : string)
  : Completion Extraction :=
  let x0 := mkExtraction [] [] decoded in
  match extendedEntities with
  | None => Normal x0
  | Some ee =>
      let x1 := fold_left photo
                  (filter (fun m => String.eqb (type m) "photo") (media ee)) x0 in
      gifs x1 (filter (fun m => String.eqb (type m) "animated_gif") (media ee))
  end.

(** Lines 123-129: the string sent to Discord. *)
Definition assemble (tweet : Tweet) (trimmed : string) : string :=
  let str := "```qml" ++ JS.LF ++ "New Tweet from " ++ screen_name (user tweet) ++ ":```"
             ++ "<https://twitter.com/" ++ screen_name (user tweet)
             ++ "/status/" ++ id_str tweet ++ ">" ++ JS.LF in
  if JS.truthy trimmed then
    let nameRT := match retweeted_status tweet with
                  | Some rt => screen_name (user rt)
                  | None => ""
                  end in
    str ++ JS.LF ++ (if JS.truthy nameRT then "RT @" ++ nameRT ++ ": " else "")
        ++ trimmed ++ JS.LF
  else str.

(** Lines 61-130: from the tweet to [mediaUrls] and [str]. *)
Definition normalize (env : Env) (tweet : Tweet)
  : Completion (list MediaEntry * string) :=
  match selectText tweet with
  | Normal (text, extendedEntities) =>
      match extract extendedEntities (decode env text) with
      | Normal x => Normal (mediaUrls x, assemble tweet (JS.trim (modifiedText x)))
      | Throw e => Throw e
      | Exit c => Exit c
      end
  | Throw e => Throw e
  | Exit c => Exit c
  end.

(** Lines 147-151: the promise is resolved at once. *)
Definition processMediaEntry (m : MediaEntry) (id : string) : Settled unit :=
  Resolved tt.

(** [discordClient.send(tweet, str)]. *)
Definition discordClient_send (env : Env) (tweet : Tweet) (str : string) : Js unit :=
  call (DiscordSend tweet str) ;;
  match send env tweet str with
  | None => ret tt
  | Some e => throw e
  end.

(** Lines 132-144. *)
Definition dispatch (env : Env) (tweet : Tweet)
           (mediaUrls : list MediaEntry) (str : string) : Js unit :=
  let promises := map (fun m => processMediaEntry m (id_str tweet)) mediaUrls in
  call (PromiseSome (List.length promises)) ;;
  then_catch (promiseSome env promises)
    (fun _ => discordClient_send env tweet str)
    (fun err => call (Console Err [LErr err]) ;;
                discordClient_send env tweet str).

(** Line 165: the address of a delivered message. *)
Definition deleteUri (msg : Message) : string :=
  "https://discordapp.com/api/channels/" ++ channel_id msg
    ++ "/messages/" ++ message_id msg.

(** Lines 153-180. The delete requests are all issued by the [forEach]
    before any of them settles. *)
Definition deleteTweet (env : Env) (tweet : option Payload) : Js unit :=
  match tweet with
  | None => ret tt
  | Some (Post _) => ret tt
  | Some Other => ret tt
  | Some (Deletion d) =>
      match status d with
      | None => ret tt
      | Some st =>
          call (FindOne (status_id_str st)) ;;
          then_catch (findOne env (status_id_str st))
            (fun result =>
               match result with
               | None => ret tt
               | Some record =>
                   match messages record with
                   | None => ret tt
                   | Some msgs =>
                       forEach (fun msg =>
                                  call (Fetch (deleteUri msg) "DELETE"
                                              ("Bot " ++ DISCORD_BOT_TOKEN env)))
                               msgs ;;
                       forEach (fun msg =>
                                  match fetch env (deleteUri msg) with
                                  | Resolved _ => ret tt
                                  | Rejected e => call (Console Err [LErr e])
                                  end)
                               msgs
                   end
               end)
            (fun err => call (Console Err [LErr err]))
      end
  end.

(** Lines 50-144: what follows the two gates. *)
Definition deliver (env : Env) (tweet : Tweet) (manual : bool) : Js unit :=
  let path := archivePath tweet manual in
  call (WriteFileSync path tweet) ;;
  match writeFileSync env path with
  | Some e => throw e
  | None =>
      if nonSelfReply tweet then ret tt
      else
        r <- liftC (normalize env tweet) ;;
        dispatch env tweet (fst r) (snd r)
  end.

(** Lines 17-145: [module.exports]. *)
Definition tweetHandler (env : Env) (tweet : Payload) (manual : bool) : Js unit :=
  match tweet with
  | Deletion d =>
      (* line 22 reads tweet.delete.status.id_str for the debug line *)
      match status d with
      | None => throw (TypeError "tweet.delete.status is undefined")
      | Some _ => deleteTweet env (Some tweet)
      end
  | Post t =>
      w <- get ;;
      if negb (JS.includes (user_id_str (user t)) (utils_ids w)) then ret tt
      else if negb manual then
        match dedup (recentTweets w) (id_str t) with
        | None => ret tt
        | Some recent' => set_recentTweets recent' ;; deliver env t manual
        end
      else deliver env t manual
  | Other =>
      (* line 27 reads tweet.user.screen_name for the debug line *)
      throw (TypeError "tweet.user is undefined")
  end.

End TweetHandler.

(** ** bin/twitterClient.js *)

Module TwitterClient.

(** Lines 28-32. *)
Definition on_connection_aborted : Js unit :=
  call (Console Warn [LStr "twitter: connection aborted"]) ;;
  set_ids [].

(** Lines 60-65. *)
Definition on_connection_error_http (httpStatusCode : Z) : Js unit :=
  if Z.eqb httpStatusCode 401 then
    call (Console Err [LStr "twitter: 401 Unauthorized. Please check your Twitter application credentials."]) ;;
    process_exit 1%Z
  else ret tt.

(** Lines 158-163. [twitter.close()] takes the connection down, and
    the transport emits ['connection aborted'] for it before the call
    returns (lines 27-28), so the listener of lines 28-32 runs inside
    [close]. The call is taken to return. *)
Definition close (env : Env) : Js unit :=
  w <- get ;;
  match twitter_connection w with
  | Some c =>
      if request c then
        call TwitterClose ;;
        on_connection_aborted ;;
        set_connection (transportClose env (twitter_connection w))
      else ret tt
  | None => ret tt
  end.

(** [ids.length] in a template literal. *)
Definition Number_toString (n : nat) : string :=
  NilEmpty.string_of_uint (Nat.to_uint n).

(** Lines 129-156. *)
Definition connect (env : Env) : Js unit :=
  set_reload false ;;
  close env ;;
  call FeedsFind ;;
  then_catch (feedsFind env)
    (fun results =>
       let ids := map twitter_id results in
       call (Console Log [LStr ("Streaming " ++ Number_toString (List.length ids)
                                  ++ " twitter feed(s)")]) ;;
       set_ids ids ;;
       if Nat.eqb (List.length ids) 0 then ret tt
       else
         call (Console Log [LStr "Attempting to connect to the Twitter stream API..."]) ;;
         call (TwitterStream "statuses/filter" ids true) ;;
         match streamThrows env ids with
         | Some e => throw e
         | None =>
             w <- get ;;
             set_connection (transportStream env ids (twitter_connection w))
         end)
    (fun err => call (Console Err [LStr "error reading from mongodb"; LErr err])).

(** Lines 83-88. *)
Definition on_connection_error_unknown (env : Env) (error : JsError) : Js unit :=
  call (Console Warn [LStr "twitter: connection error unknown"; LErr error]) ;;
  connect env.

(** Line 106, and lines 110-112. *)
Definition on_data (env : Env) (tweet : Payload) : Js unit :=
  TweetHandler.tweetHandler env tweet false.

Definition on_post (env : Env) (data : Payload) : Js unit :=
  TweetHandler.tweetHandler env data true.

(** Lines 116-121. *)
Definition reloadCheck (env : Env) : Js unit :=
  w <- get ;;
  if negb (utils_reload w) then ret tt
  else
    call (Console Log [LStr "Scheduled restart of Twitter Client"]) ;;
    connect env.

(** [path.join('./tweets', file)] for the name of a directory entry. *)
Definition joinFolder (file : string) : string := "tweets/" ++ file.

(** Line 180: 28 days in milliseconds. *)
Definition retention : Z := 2419200000.

(** Lines 174-185: the callback of [fs.stat] for one file; the result
    tells whether [fs.unlink] was called. *)
Definition statCallback (env : Env) (file : string) : Js bool :=
  match stat env (joinFolder file) with
  | inl statErr => call (Console Err [LErr statErr]) ;; ret false
  | inr ctime =>
      let endTime := (ctime + retention)%Z in
      if Z.gtb (now env (joinFolder file)) endTime then
        call (Unlink (joinFolder file)) ;; ret true
      else ret false
  end.

(** The callbacks of the files; the files for which [fs.unlink] was
    called are returned. The code fixes no order among the callbacks of
    [fs.stat] and of [fs.unlink]; they run here in the order of the
    directory listing, one of the possible orders, and what is stated
    of the sweep is about which calls are made, not about that order. *)
Fixpoint statCallbacks (env : Env) (files : list string) : Js (list string) :=
  match files with
  | [] => ret []
  | file :: files' =>
      unlinked <- statCallback env file ;;
      rest <- statCallbacks env files' ;;
      ret (if unlinked then file :: rest else rest)
  end.

(** The callback given to [fs.unlink] is [console.error]. *)
Definition unlinkCallback (env : Env) (file : string) : Js unit :=
  match unlink env (joinFolder file) with
  | Some e => call (Console Err [LErr e])
  | None => call (Console Err [LNull])
  end.

(** Lines 165-188. [forEach] issues every [fs.stat] before any callback
    runs; the callbacks then run in one of the possible orders (see
    [statCallbacks]). *)
Definition removeOldFiles (env : Env) : Js unit :=
  call (Readdir "./tweets") ;;
  match readdir env "./tweets" with
  | inl readdirErr => call (Console Err [LErr readdirErr])
  | inr files =>
      forEach (fun file => call (Stat (joinFolder file))) files ;;
      unlinked <- statCallbacks env files ;;
      forEach (unlinkCallback env) unlinked
  end.

(** Lines 22-25. *)
Definition on_connection_success (url : string) : Js unit :=
  call (Console Log [LStr "twitter: connection success"]).

(** Lines 39-41. *)
Definition on_connection_error_network (error : JsError) : Js unit :=
  call (Console Warn [LStr "twitter: connection error network"; LErr error]).

(** Lines 51-53. *)
Definition on_connection_error_stall : Js unit :=
  call (Console Warn [LStr "twitter: connection error stall"]).

(** Lines 73-75. *)
Definition on_connection_rate_limit (httpStatusCode : Z) : Js unit :=
  call (Console Warn [LStr "twitter: connection rate limit"; LNum httpStatusCode]).

(** Lines 95-97: only a debug line. *)
Definition on_data_keep_alive : Js unit := ret tt.

(** Lines 101-103. *)
Definition on_data_error (error : JsError) : Js unit :=
  call (Console Err [LStr "twitter: data error"; LErr error]).

(** What the file registers a listener or a timer for. *)
Inductive Event : Type :=
| ConnectionSuccess (url : string)
| ConnectionAborted
| ConnectionErrorNetwork (error : JsError)
| ConnectionErrorStall
| ConnectionErrorHttp (httpStatusCode : Z)
| ConnectionRateLimit (httpStatusCode : Z)
| ConnectionErrorUnknown (error : JsError)
| DataKeepAlive
| DataError (error : JsError)
| Data (tweet : Payload)
| ManualPost (data : Payload)
| ReloadTimer
| SweepTimer.

(** Lines 22-127: the listener or timer callback of each event. *)
Definition listener (env : Env) (ev : Event) : Js unit :=
  match ev with
  | ConnectionSuccess url => on_connection_success url
  | ConnectionAborted => on_connection_aborted
  | ConnectionErrorNetwork error => on_connection_error_network error
  | ConnectionErrorStall => on_connection_error_stall
  | ConnectionErrorHttp httpStatusCode => on_connection_error_http httpStatusCode
  | ConnectionRateLimit httpStatusCode => on_connection_rate_limit httpStatusCode
  | ConnectionErrorUnknown error => on_connection_error_unknown env error
  | DataKeepAlive => on_data_keep_alive
  | DataError error => on_data_error error
  | Data tweet => on_data env tweet
  | ManualPost data => on_post env data
  | ReloadTimer => reloadCheck env
  | SweepTimer => removeOldFiles env
  end.

(** A run of events, one callback after the other. [process.exit]
    ends the run with its code. An exception that leaves a callback is
    not handled in this file; the run goes on with the next event, so
    that what is proved of every run holds as well of a run which the
    exception would have ended. *)
Fixpoint run (env : Env) (events : list Event) (w : World) : option Z * World :=
  match events with
  | [] => (None, w)
  | ev :: events' =>
      match listener env ev w with
      | (Exit code, w') => (Some code, w')
      | (_, w') => run env events' w'
      end
  end.

End TwitterClient.

(** ** Notions used in the statements *)

(** The calls a computation adds to the trace of a world. *)
Definition newCalls {A : Type} (m : Js A) (w : World) : list Call :=
  skipn (List.length (trace w)) (trace (snd (m w))).

(** The deliveries among some calls, in order. *)
Definition sends (cs : list Call) : list (Tweet * string) :=
  flat_map (fun c => match c with
                     | DiscordSend t str => [(t, str)]
                     | _ => []
                     end) cs.

(** The streaming sessions opened among some calls, in order. *)
Definition streams (cs : list Call) : list (string * list string * bool) :=
  flat_map (fun c => match c with
                     | TwitterStream endpoint follow stall => [(endpoint, follow, stall)]
                     | _ => []
                     end) cs.

(** A computation that only makes calls: its completion and its calls
    are the same in every world, and it changes nothing but the trace. *)
Definition tracer {A : Type} (m : Js A) : Prop :=
  exists (c : Completion A) (cs : list Call), forall w, m w = (c, emit cs w).

(** The world after a run of ['data'] events, one per tweet. An
    exception of one event does not undo what the event did before. *)
Definition streamAll (env : Env) (tweets : list Tweet) (w : World) : World :=
  fold_left (fun w' t => snd (TwitterClient.on_data env (Post t) w')) tweets w.

(** The last [n] elements of a list. *)
Definition lastn {A : Type} (n : nat) (xs : list A) : list A :=
  skipn (List.length xs - n) xs.

(** The text after the first occurrence of [u] has been wrapped. *)
Definition wrapFirst (text u : string) : string :=
  JS.replace text u ("<" ++ u ++ ">").

(** A media item that one of the two loops visits. *)
Definition visited (m : Media) : bool :=
  (String.eqb (type m) "photo" || String.eqb (type m) "animated_gif")%bool.

(** [twitter.connection && twitter.connection.request]. *)
Definition existingConnection (w : World) : bool :=
  match twitter_connection w with
  | Some c => request c
  | None => false
  end.

(** A payload without [delete.status]: absent, without [delete], or
    with a [delete] that has no [status]. *)
Definition withoutStatus (p : option Payload) : bool :=
  match p with
  | None => true
  | Some (Post _) => true
  | Some Other => true
  | Some (Deletion d) => match status d with None => true | Some _ => false end
  end.

(** Whether no string occurs twice in a list. *)
Fixpoint distinct (xs : list string) : bool :=
  match xs with
  | [] => true
  | x :: xs' => negb (JS.includes x xs') && distinct xs'
  end.

(** A world with another window. *)
Definition withWindow (recent : list string) (w : World) : World :=
  mkWorld (utils_ids w) (utils_reload w) recent (twitter_connection w) (trace w).

(** The calls of lines 132-144 when the delivery call returns: the
    success continuation alone after a resolved batch, the failure
    continuation alone after a rejected one. *)
Definition chain (env : Env) (t : Tweet) (ms : list MediaEntry) (str : string)
  : list Call :=
  PromiseSome (List.length ms) ::
  match promiseSome env (map (fun m => TweetHandler.processMediaEntry m (id_str t)) ms) with
  | Resolved _ => [DiscordSend t str]
  | Rejected e => [Console Err [LErr e]; DiscordSend t str]
  end.

(** Lines 179-181 for one file: [fs.stat] succeeded and [now] is
    greater than [endTime]. *)
Definition expired (env : Env) (file : string) : bool :=
  match stat env (TwitterClient.joinFolder file) with
  | inl _ => false
  | inr ctime =>
      Z.gtb (now env (TwitterClient.joinFolder file)) (ctime + TwitterClient.retention)
  end.

(** The calls of [connect] once [FeedsModel.find()] has settled (lines
    137-155); an exception of [twitter.stream] reaches the [catch]. *)
Definition afterFind (env : Env) : list Call :=
  match feedsFind env with
  | Rejected err => [Console Err [LStr "error reading from mongodb"; LErr err]]
  | Resolved results =>
      let ids := map twitter_id results in
      Console Log [LStr ("Streaming " ++ TwitterClient.Number_toString (List.length ids)
                           ++ " twitter feed(s)")] ::
      match ids with
      | [] => []
      | _ :: _ =>
          Console Log [LStr "Attempting to connect to the Twitter stream API..."] ::
          TwitterStream "statuses/filter" ids true ::
          match streamThrows env ids with
          | Some e => [Console Err [LStr "error reading from mongodb"; LErr e]]
          | None => []
          end
      end
  end.

(** What the two media loops keep true of their variables, [text]
    being the decoded text they started from: no url is recorded twice,
    and the text is the starting text with each recorded url wrapped
    once, in the order of recording. *)
Definition wrappedOnce (text : string) (x : TweetHandler.Extraction) : Prop :=
  NoDup (TweetHandler.escapedUrls x)
  /\ TweetHandler.modifiedText x
     = fold_left wrapFirst (TweetHandler.escapedUrls x) text.

(** A computation in which [process.exit] is never reached. *)
Definition neverExits {A : Type} (m : Js A) : Prop :=
  forall w code, fst (m w) <> Exit code.

(** A computation that completes normally in every world: no
    exception leaves it and [process.exit] is not reached. *)
Definition returns (m : Js unit) : Prop :=
  forall w, fst (m w) = Normal tt.

(** A computation that only makes calls, none of them a delivery. *)
Definition silent {A : Type} (m : Js A) : Prop :=
  exists (c : Completion A) (cs : list Call),
    (forall w, m w = (c, emit cs w)) /\ sends cs = [].

(** The window is within its bound and holds no id twice. *)
Definition windowOk (w : World) : Prop :=
  List.length (recentTweets w) <= 20 /\ NoDup (recentTweets w).

(** Lines 89 and 107: the entry pushed onto [mediaUrls] for a photo,
    and for an animated gif whose first variant is [v]. *)
Definition photoEntry (m : Media) : MediaEntry :=
  mkMediaEntry None (media_url_https m).

Definition gifEntry (m : Media) : list MediaEntry :=
  match video_info m with
  | Some vi =>
      match variants vi with
      | v :: _ => [mkMediaEntry (Some (variant_url v)) (media_url_https m)]
      | [] => []
      end
  | None => []
  end.

(** An animated gif for which [media.video_info.variants[0]] exists. *)
Definition hasVariant (m : Media) : bool :=
  match video_info m with
  | Some vi => match variants vi with _ :: _ => true | [] => false end
  | None => false
  end.



(** The transport events whose listeners only write a line. *)
Definition passive (ev : TwitterClient.Event) : bool :=
  match ev with
  | TwitterClient.ConnectionSuccess _
  | TwitterClient.ConnectionErrorNetwork _
  | TwitterClient.ConnectionErrorStall
  | TwitterClient.ConnectionRateLimit _
  | TwitterClient.DataKeepAlive
  | TwitterClient.DataError _ => true
  | _ => false
  end.

Definition isConsole (c : Call) : bool :=
  match c with
  | Console _ _ => true
  | _ => false
  end.

(** Line 183: what the callback of [fs.unlink] writes for a file. *)
Definition unlinkReport (env : Env) (file : string) : Call :=
  Console Err [match unlink env (TwitterClient.joinFolder file) with
               | Some e => LErr e
               | None => LNull
               end].

(** The calls of [close] on an existing connection: [twitter.close()]
    and, inside it, the line of the ['connection aborted'] listener. *)
Definition closing : list Call :=
  [TwitterClose; Console Warn [LStr "twitter: connection aborted"]].

(** Whether [u] occurs in [s]. *)
Definition occurs (u s : string) : bool :=
  match JS.indexOf u s with
  | Some _ => true
  | None => false
  end.

(** Whether a code unit is absent from a string. *)
Fixpoint lacks (c : ascii) (s : string) : bool :=
  match s with
  | EmptyString => true
  | String x s' => negb (Ascii.eqb x c) && lacks c s'
  end.

(** A url without the characters that the wrapping gives a meaning:
    the dollar sign of the replacement patterns, and the brackets. *)
Definition clean (u : string) : bool :=
  negb (JS.hasDollar u) && lacks "<" u && lacks ">" u.

(** Some non-empty end of [u] is a beginning of [v], or begins with
    [v]: in some text an occurrence of [u] runs into an occurrence of
    [v] that starts inside it or right where it starts. *)
Fixpoint meets (u v : string) : bool :=
  match u with
  | EmptyString => false
  | String _ u' => JS.startsWith u v || JS.startsWith v u || meets u' v
  end.

(** Two urls that can share code units of a text: one occurs in the
    other, or an end of one is a beginning of the other. *)
Definition overlaps (u v : string) : bool := meets u v || meets v u.

(** Urls that are clean and of which no two different ones overlap. *)
Definition separate (urls : list string) : bool :=
  forallb (fun u =>
             clean u
             && forallb (fun v => String.eqb u v || negb (overlaps u v)) urls)
          urls.

(** A text in which some urls are wrapped: stretches of text, each
    followed by a wrapped url, and the text after the last of them.
    [render] is the text with the brackets, [unwrapped] the text
    without them. *)
Fixpoint render (segs : list (string * string)) (last : string) : string :=
  match segs with
  | [] => last
  | (plain, u) :: segs' => plain ++ "<" ++ u ++ ">" ++ render segs' last
  end.

Fixpoint unwrapped (segs : list (string * string)) (last : string) : string :=
  match segs with
  | [] => last
  | (plain, u) :: segs' => plain ++ u ++ unwrapped segs' last
  end.

(** The stretches of text between the wrapped urls. *)
Definition plains (segs : list (string * string)) (last : string) : list string :=
  (map fst segs ++ [last])%list.

(** Wrapping the first occurrence of [u] that lies in a stretch of
    text. *)
Fixpoint wrapIn (u : string) (segs : list (string * string)) (last : string)
  : list (string * string) * string :=
  match segs with
  | [] =>
      match JS.indexOf u last with
      | Some i => ([(JS.take i last, u)], JS.drop (i + String.length u) last)
      | None => ([], last)
      end
  | (plain, w) :: segs' =>
      match JS.indexOf u plain with
      | Some i =>
          ((JS.take i plain, u) :: (JS.drop (i + String.length u) plain, w) :: segs',
           last)
      | None =>
          ((plain, w) :: fst (wrapIn u segs' last), snd (wrapIn u segs' last))
      end
  end.

(** ** Sample data *)

Module Sample.

Definition env : Env :=
  mkEnv (fun s => s) (fun _ => None) (fun _ => Resolved tt) (fun _ _ => None)
        (fun _ => Resolved None) (fun _ => Resolved tt) "token"
        (Resolved [mkFeed "7"; mkFeed "8"])
        (fun _ => None) (fun _ _ => Some (mkConnection true)) (fun _ => None)
        (fun _ => inr ["old.json"; "new.json"; "gone.json"])
        (fun p => if String.eqb p "tweets/old.json" then inr 1000%Z
                  else if String.eqb p "tweets/new.json" then inr 9000000000%Z
                  else inl (ExternalError "ENOENT"))
        (fun _ => None)
        (fun _ => 9000000001%Z).


(** The same, with a delivery call that throws. *)
Definition envThrowing : Env :=
  mkEnv (decode env) (writeFileSync env) (promiseSome env)
        (fun _ _ => Some (ExternalError "send"))
        (findOne env) (fetch env) (DISCORD_BOT_TOKEN env) (feedsFind env)
        (transportClose env) (transportStream env) (streamThrows env)
        (readdir env) (stat env) (unlink env) (now env).

Definition alice : User := mkUser "7" "alice".
Definition bob : User := mkUser "8" "bob".
Definition mallory : User := mkUser "666" "mallory".

Definition plain (id : string) (u : User) (txt : string) : Tweet :=
  mkTweet id u txt false None None None None.

Definition photoOf (u : string) : Media :=
  mkMedia "photo" u "https://pbs.twimg.com/media/a.jpg" None.

Definition gifOf (u : string) : Media :=
  mkMedia "animated_gif" u "https://pbs.twimg.com/tweet_video_thumb/b.jpg"
          (Some (mkVideoInfo [mkVariant "https://video.twimg.com/b.mp4"])).

(** Two photos that share one short url, a text that holds it twice. *)
Definition gallery : Entities :=
  mkEntities [photoOf "https://t.co/abc"; photoOf "https://t.co/abc"].

Definition galleryText : string := "look https://t.co/abc and https://t.co/abc".

(** A truncated retweet: the outer tweet has extended fields of its own. *)
Definition original : Tweet :=
  mkTweet "500" bob "short inner" false None
          (Some (mkExtendedTweet "the full inner text" (Some gallery))) None None.

Definition retweet : Tweet :=
  mkTweet "501" alice "RT @bob: short" true None
          (Some (mkExtendedTweet "the outer full text" None)) None (Some original).

Definition world : World :=
  mkWorld ["7"; "8"] false ["100"] (Some (mkConnection true)) [].

(** What the pipeline makes of [retweet]. *)
Definition retweetNormalized : list MediaEntry * string :=
  Eval vm_compute in
    match TweetHandler.normalize env retweet with
    | Normal r => r
    | _ => ([], "")
    end.

(** A photo, a video (which the loops skip) and an animated gif. *)
Definition mixed : Entities :=
  mkEntities
    [photoOf "https://t.co/abc";
     mkMedia "video" "https://t.co/vid" "https://pbs.twimg.com/v.jpg" None;
     gifOf "https://t.co/gif"].


(** The same as [env], with a database that cannot be reached. *)
Definition envNoDatabase : Env :=
  mkEnv (decode env) (writeFileSync env) (promiseSome env) (send env)
        (findOne env) (fetch env) (DISCORD_BOT_TOKEN env)
        (Rejected (ExternalError "ECONNREFUSED"))
        (transportClose env) (transportStream env) (streamThrows env)
        (readdir env) (stat env) (unlink env) (now env).

(** The same as [env], with a [twitter.stream] that throws. *)
Definition envNoStream : Env :=
  mkEnv (decode env) (writeFileSync env) (promiseSome env) (send env)
        (findOne env) (fetch env) (DISCORD_BOT_TOKEN env) (feedsFind env)
        (transportClose env) (transportStream env)
        (fun _ => Some (ExternalError "stream"))
        (readdir env) (stat env) (unlink env) (now env).

(** The world after somebody has asked for a reload. *)
Definition worldReload : World :=
  mkWorld ["7"] true [] None [].

(** The same as [env], without the archive folder. *)
Definition envNoFolder : Env :=
  mkEnv (decode env) (writeFileSync env) (promiseSome env) (send env)
        (findOne env) (fetch env) (DISCORD_BOT_TOKEN env) (feedsFind env)
        (transportClose env) (transportStream env) (streamThrows env)
        (fun _ => inl (ExternalError "ENOENT")) (stat env) (unlink env) (now env).

(** Two photos with one short url and an animated gif with another;
    a text that holds the first url twice. *)
Definition album : Entities :=
  mkEntities [photoOf "https://t.co/abc"; photoOf "https://t.co/abc";
              gifOf "https://t.co/xyz"].

Definition albumText : string :=
  "a https://t.co/xyz b https://t.co/abc c https://t.co/abc".

(** Two photos of which one url is the beginning of the other. *)
Definition nested : Entities :=
  mkEntities [photoOf "https://t.co/abc"; photoOf "https://t.co/ab"].

Definition nestedText : string := "x https://t.co/abc y https://t.co/abc".

(** A reply of alice to bob. *)
Definition reply : Tweet :=
  mkTweet "600" alice "@bob indeed" false (Some "8") None None None.

(** The same as [env], on a file system that refuses every write. *)
Definition envReadOnly : Env :=
  mkEnv (decode env) (fun _ => Some (ExternalError "EROFS")) (promiseSome env)
        (send env) (findOne env) (fetch env) (DISCORD_BOT_TOKEN env) (feedsFind env)
        (transportClose env) (transportStream env) (streamThrows env)
        (readdir env) (stat env) (unlink env) (now env).

(** The ids ["1"], ..., ["n"] and the tweets of alice that carry them. *)
Definition idsUpTo (n : nat) : list string :=
  map TwitterClient.Number_toString (seq 1 n).

Definition tweetsUpTo (n : nat) : list Tweet :=
  map (fun id => plain id alice "hi") (idsUpTo n).

End Sample.

(** * Properties *)

(** ** Arrays and strings *)

Section Primitives.

Lemma includes_true_iff (x : string) (xs : list string) :
  JS.includes x xs = true <-> In x xs.
Proof.
  unfold JS.includes. rewrite existsb_exists. split.
  - intros (y & Hy & Heq). apply String.eqb_eq in Heq. now subst.
  - intros H. exists x. split; [assumption | apply String.eqb_refl].
Qed.

Lemma includes_false_iff (x : string) (xs : list string) :
  JS.includes x xs = false <-> ~ In x xs.
Proof.
  rewrite <- includes_true_iff. destruct (JS.includes x xs); split; congruence.
Qed.

Lemma lastn_short {A : Type} (n : nat) (xs : list A) :
  List.length xs <= n -> lastn n xs = xs.
Proof.
  intros H. unfold lastn. replace (List.length xs - n) with 0 by lia.
  reflexivity.
Qed.

Lemma lastn_length {A : Type} (n : nat) (xs : list A) :
  List.length (lastn n xs) = Nat.min n (List.length xs).
Proof. unfold lastn. rewrite length_skipn. lia. Qed.

Lemma lastn_incl {A : Type} (n : nat) (xs : list A) (x : A) :
  In x (lastn n xs) -> In x xs.
Proof.
  unfold lastn. intros H.
  rewrite <- (firstn_skipn (List.length xs - n) xs).
  apply in_or_app. now right.
Qed.

Lemma lastn_app_long {A : Type} (n : nat) (xs ys : list A) :
  n <= List.length ys -> lastn n (xs ++ ys)%list = lastn n ys.
Proof.
  intros H. unfold lastn. rewrite skipn_app, length_app.
  rewrite skipn_all2 by lia. simpl. f_equal. lia.
Qed.

Lemma tl_snoc {A : Type} (xs : list A) (x : A) :
  xs <> [] -> tl (xs ++ [x])%list = (tl xs ++ [x])%list.
Proof. destruct xs; [congruence | reflexivity]. Qed.

Lemma tl_skipn {A : Type} (k : nat) (xs : list A) :
  tl (skipn k xs) = skipn (S k) xs.
Proof.
  revert xs. induction k as [|k IH]; intros [|x xs]; try reflexivity.
  apply IH.
Qed.

End Primitives.

Example replace_first_only :
  JS.replace "a t.co/x b t.co/x" "t.co/x" "<t.co/x>" = "a <t.co/x> b t.co/x".
Proof. reflexivity. Qed.

Example replace_without_occurrence :
  JS.replace "nothing here" "t.co/x" "<t.co/x>" = "nothing here".
Proof. reflexivity. Qed.

Example replace_dollar_patterns :
  JS.replace "abc" "b" "[$&$$$`$'$1]" = "a[b$ac$1]c".
Proof. reflexivity. Qed.

Example trim_both_ends : JS.trim "  a b  " = "a b".
Proof. reflexivity. Qed.

Example indexOf_first : JS.indexOf "ab" "xxabab" = Some 2.
Proof. reflexivity. Qed.

(** ** The dedup window *)

Section DedupWindow.

Import TweetHandler.

Lemma remember_length (recent : list string) (id : string) :
  List.length recent <= 20 -> List.length (remember recent id) <= 20.
Proof.
  intros H. unfold remember, JS.push, JS.shift.
  destruct (Nat.ltb_spec 20 (List.length (recent ++ [id])%list)) as [Hlt | Hge].
  - rewrite length_app in Hlt. simpl in Hlt.
    destruct recent as [|x recent]; simpl in *; [lia|].
    rewrite length_app. simpl. lia.
  - assumption.
Qed.

(** Pushing onto the last 20 of a history gives the last 20 of the
    longer history. *)
Lemma remember_lastn (history : list string) (id : string) :
  remember (lastn 20 history) id = lastn 20 (history ++ [id])%list.
Proof.
  unfold remember, JS.push, JS.shift.
  assert (Hl : List.length (lastn 20 history ++ [id])%list
               = Nat.min 20 (List.length history) + 1).
  { rewrite length_app, lastn_length. reflexivity. }
  rewrite Hl. clear Hl.
  destruct (Nat.ltb_spec 20 (Nat.min 20 (List.length history) + 1)) as [Hlt | Hge].
  - assert (Hlen : 20 <= List.length history) by lia.
    rewrite tl_snoc.
    + unfold lastn. rewrite tl_skipn, skipn_app, length_app.
      change (List.length [id]) with 1.
      replace (List.length history + 1 - 20) with (S (List.length history - 20)) by lia.
      replace (S (List.length history - 20) - List.length history) with 0 by lia.
      reflexivity.
    + intros Hnil. pose proof (lastn_length 20 history) as Hl.
      rewrite Hnil in Hl. change (List.length (@nil string)) with 0 in Hl. lia.
  - assert (Hlen : List.length history < 20) by lia.
    rewrite (lastn_short 20 history) by lia.
    rewrite lastn_short; [reflexivity|].
    rewrite length_app. change (List.length [id]) with 1. lia.
Qed.

Lemma dedupAll_snoc (recent ids : list string) (id : string) :
  dedupAll recent (ids ++ [id])%list =
  match dedup (dedupAll recent ids) id with
  | Some r => r
  | None => dedupAll recent ids
  end.
Proof. unfold dedupAll. now rewrite fold_left_app. Qed.

Lemma dedupAll_length (recent ids : list string) :
  List.length recent <= 20 -> List.length (dedupAll recent ids) <= 20.
Proof.
  intros H. induction ids as [|id ids IH] using rev_ind; [assumption|].
  rewrite dedupAll_snoc. unfold dedup.
  destruct (JS.includes id (dedupAll recent ids)); [assumption|].
  now apply remember_length.
Qed.

(** Ids that are all new leave the last 20 of the whole history. *)
Lemma dedupAll_distinct (recent ids : list string) :
  List.length recent <= 20 -> NoDup (recent ++ ids)%list ->
  dedupAll recent ids = lastn 20 (recent ++ ids)%list.
Proof.
  intros Hlen. induction ids as [|id ids IH] using rev_ind; intros Hnd.
  - rewrite app_nil_r. symmetry. now apply lastn_short.
  - rewrite dedupAll_snoc. rewrite app_assoc in Hnd |- *.
    destruct (NoDup_remove (recent ++ ids)%list [] id Hnd) as [Hnd' Hnew].
    rewrite app_nil_r in Hnd', Hnew.
    rewrite (IH Hnd'). unfold dedup.
    replace (JS.includes id (lastn 20 (recent ++ ids)%list)) with false.
    + apply remember_lastn.
    + symmetry. apply includes_false_iff. intros Hin. apply Hnew.
      eapply lastn_incl, Hin.
Qed.

End DedupWindow.

(** ** The monad: worlds, traces, computations that only make calls *)

Section Traces.

Lemma emit_nil (w : World) : emit [] w = w.
Proof. destruct w. unfold emit. simpl. now rewrite app_nil_r. Qed.

Lemma emit_emit (cs1 cs2 : list Call) (w : World) :
  emit cs2 (emit cs1 w) = emit (cs1 ++ cs2)%list w.
Proof. unfold emit. simpl. now rewrite app_assoc. Qed.

Lemma skipn_own_length {A : Type} (xs ys : list A) :
  skipn (List.length xs) (xs ++ ys)%list = ys.
Proof.
  rewrite skipn_app, skipn_all, Nat.sub_diag. reflexivity.
Qed.

Lemma newCalls_emit {A : Type} (m : Js A) (w : World)
      (c : Completion A) (cs : list Call) :
  m w = (c, emit cs w) -> newCalls m w = cs.
Proof.
  intros H. unfold newCalls. rewrite H. simpl. apply skipn_own_length.
Qed.

Lemma sends_app (cs1 cs2 : list Call) :
  sends (cs1 ++ cs2)%list = (sends cs1 ++ sends cs2)%list.
Proof. apply flat_map_app. Qed.

Lemma streams_app (cs1 cs2 : list Call) :
  streams (cs1 ++ cs2)%list = (streams cs1 ++ streams cs2)%list.
Proof. apply flat_map_app. Qed.

Lemma tracer_ret {A : Type} (a : A) : tracer (ret a).
Proof. exists (Normal a), []. intros w. unfold ret. now rewrite emit_nil. Qed.

Lemma tracer_throw {A : Type} (e : JsError) : tracer (@throw A e).
Proof. exists (Throw e), []. intros w. unfold throw. now rewrite emit_nil. Qed.

Lemma tracer_exit {A : Type} (code : Z) : tracer (@process_exit A code).
Proof.
  exists (Exit code), []. intros w. unfold process_exit. now rewrite emit_nil.
Qed.

Lemma tracer_liftC {A : Type} (c : Completion A) : tracer (liftC c).
Proof. exists c, []. intros w. unfold liftC. now rewrite emit_nil. Qed.

Lemma tracer_call (c : Call) : tracer (call c).
Proof. exists (Normal tt), [c]. reflexivity. Qed.

Lemma tracer_bind {A B : Type} (m : Js A) (k : A -> Js B) :
  tracer m -> (forall a, tracer (k a)) -> tracer (bind m k).
Proof.
  intros (c & cs & Hm) Hk. destruct c as [a | e | code].
  - destruct (Hk a) as (c' & cs' & Hk').
    exists c', (cs ++ cs')%list. intros w.
    unfold bind. now rewrite Hm, Hk', emit_emit.
  - exists (Throw e), cs. intros w. unfold bind. now rewrite Hm.
  - exists (Exit code), cs. intros w. unfold bind. now rewrite Hm.
Qed.

Lemma tracer_forEach {A : Type} (f : A -> Js unit) (xs : list A) :
  (forall x, tracer (f x)) -> tracer (forEach f xs).
Proof.
  intros Hf. induction xs as [|x xs IH]; simpl.
  - apply tracer_ret.
  - apply tracer_bind; [apply Hf | intros _; exact IH].
Qed.

Lemma tracer_unhandled (m : Js unit) : tracer m -> tracer (unhandled m).
Proof.
  intros (c & cs & Hm). destruct c as [a | e | code].
  - exists (Normal a), cs. intros w. unfold unhandled. now rewrite Hm.
  - exists (Normal tt), (cs ++ [UnhandledRejection e])%list. intros w.
    unfold unhandled, call. now rewrite Hm, emit_emit.
  - exists (Exit code), cs. intros w. unfold unhandled. now rewrite Hm.
Qed.

Lemma tracer_then_catch {A : Type} (p : Settled A)
      (f : A -> Js unit) (g : JsError -> Js unit) :
  (forall a, tracer (f a)) -> (forall e, tracer (g e)) ->
  tracer (then_catch p f g).
Proof.
  intros Hf Hg. destruct p as [a | e]; simpl.
  - destruct (Hf a) as (c & cs & Hfa). destruct c as [u | e | code].
    + exists (Normal u), cs. intros w. now rewrite Hfa.
    + destruct (tracer_unhandled (g e) (Hg e)) as (c' & cs' & Hge).
      exists c', (cs ++ cs')%list. intros w. now rewrite Hfa, Hge, emit_emit.
    + exists (Exit code), cs. intros w. now rewrite Hfa.
  - apply tracer_unhandled, Hg.
Qed.

(** What a tracer leaves alone. *)
Lemma tracer_frame {A : Type} (m : Js A) (w : World) :
  tracer m ->
  utils_ids (snd (m w)) = utils_ids w
  /\ utils_reload (snd (m w)) = utils_reload w
  /\ recentTweets (snd (m w)) = recentTweets w
  /\ twitter_connection (snd (m w)) = twitter_connection w
  /\ trace (snd (m w)) = (trace w ++ newCalls m w)%list.
Proof.
  intros (c & cs & Hm). rewrite (newCalls_emit m w c cs (Hm w)), Hm.
  simpl. repeat split; reflexivity.
Qed.

End Traces.

Create HintDb js discriminated.
#[export] Hint Resolve tracer_ret tracer_throw tracer_exit tracer_liftC
  tracer_call tracer_bind tracer_forEach tracer_unhandled
  tracer_then_catch : js.

(** Splits a goal [tracer m] along the shape of [m]. *)
Ltac tracer_step :=
  match goal with
  | |- forall _, _ => intro
  | |- tracer (bind _ _) => apply tracer_bind
  | |- tracer (then_catch _ _ _) => apply tracer_then_catch
  | |- tracer (forEach _ _) => apply tracer_forEach
  | |- tracer (match ?x with _ => _ end) => destruct x
  | |- tracer (if ?x then _ else _) => destruct x
  | |- tracer _ => solve [auto with js]
  end.

Section HandlerFrames.

Import TweetHandler TwitterClient.

Variable env : Env.

Lemma discordClient_send_tracer (t : Tweet) (str : string) :
  tracer (discordClient_send env t str).
Proof. unfold discordClient_send. repeat tracer_step. Qed.

Lemma dispatch_tracer (t : Tweet) (ms : list MediaEntry) (str : string) :
  tracer (dispatch env t ms str).
Proof.
  unfold dispatch. repeat tracer_step; apply discordClient_send_tracer.
Qed.

Lemma deliver_tracer (t : Tweet) (manual : bool) :
  tracer (deliver env t manual).
Proof.
  unfold deliver. repeat tracer_step. apply dispatch_tracer.
Qed.

Lemma deleteTweet_tracer (p : option Payload) : tracer (deleteTweet env p).
Proof. unfold deleteTweet. repeat tracer_step. Qed.

Lemma on_connection_error_http_tracer (code : Z) :
  tracer (on_connection_error_http code).
Proof. unfold on_connection_error_http. repeat tracer_step. Qed.

Lemma statCallbacks_tracer (files : list string) :
  tracer (statCallbacks env files).
Proof.
  induction files as [|file files IH]; simpl; [apply tracer_ret|].
  apply tracer_bind.
  - unfold statCallback. repeat tracer_step.
  - intros unlinked. apply tracer_bind; [exact IH | auto with js].
Qed.

Lemma removeOldFiles_tracer : tracer (removeOldFiles env).
Proof.
  unfold removeOldFiles. apply tracer_bind; [auto with js | intros _].
  destruct (readdir env "./tweets"); [auto with js|].
  apply tracer_bind; [auto with js | intros _].
  apply tracer_bind; [apply statCallbacks_tracer | intros unlinked].
  apply tracer_forEach. intros file. unfold unlinkCallback.
  destruct (unlink env (joinFolder file)); auto with js.
Qed.

End HandlerFrames.

(** ** The two gates of the handler *)

Section Gates.

Import TweetHandler TwitterClient.

Variable env : Env.

(** A post of an author who is not streamed: nothing happens. *)
Lemma tweetHandler_unregistered (t : Tweet) (manual : bool) (w : World) :
  JS.includes (user_id_str (user t)) (utils_ids w) = false ->
  tweetHandler env (Post t) manual w = (Normal tt, w).
Proof.
  intros H. unfold tweetHandler, bind, get. now rewrite H.
Qed.

(** A manual post of a streamed author goes straight to the archive. *)
Lemma tweetHandler_manual (t : Tweet) (w : World) :
  JS.includes (user_id_str (user t)) (utils_ids w) = true ->
  tweetHandler env (Post t) true w = deliver env t true w.
Proof.
  intros H. unfold tweetHandler, bind, get. now rewrite H.
Qed.

(** A streamed post of a streamed author meets the window. *)
Lemma tweetHandler_streamed (t : Tweet) (w : World) :
  JS.includes (user_id_str (user t)) (utils_ids w) = true ->
  tweetHandler env (Post t) false w =
  match dedup (recentTweets w) (id_str t) with
  | None => (Normal tt, w)
  | Some recent' =>
      deliver env t false
              (mkWorld (utils_ids w) (utils_reload w) recent'
                       (twitter_connection w) (trace w))
  end.
Proof.
  intros H. unfold tweetHandler, bind, get. rewrite H. simpl.
  destruct (dedup (recentTweets w) (id_str t)); reflexivity.
Qed.

Lemma on_data_window (t : Tweet) (w : World) :
  JS.includes (user_id_str (user t)) (utils_ids w) = true ->
  utils_ids (snd (on_data env (Post t) w)) = utils_ids w
  /\ recentTweets (snd (on_data env (Post t) w)) =
     match dedup (recentTweets w) (id_str t) with
     | Some recent' => recent'
     | None => recentTweets w
     end.
Proof.
  intros H. unfold on_data. rewrite (tweetHandler_streamed t w H).
  destruct (dedup (recentTweets w) (id_str t)) as [recent'|].
  - match goal with
    | |- context [deliver env t false ?w0] =>
        destruct (tracer_frame (deliver env t false) w0 (deliver_tracer env t false))
          as (Hids & _ & Hrecent & _)
    end.
    rewrite Hids, Hrecent. split; reflexivity.
  - split; reflexivity.
Qed.

Lemma streamAll_window (tweets : list Tweet) (w : World) :
  Forall (fun t => JS.includes (user_id_str (user t)) (utils_ids w) = true) tweets ->
  utils_ids (streamAll env tweets w) = utils_ids w
  /\ recentTweets (streamAll env tweets w) =
     dedupAll (recentTweets w) (map id_str tweets).
Proof.
  revert w. induction tweets as [|t tweets IH]; intros w Hall.
  - split; reflexivity.
  - inversion Hall as [|t' tweets' Ht Htweets]; subst.
    destruct (on_data_window t w Ht) as (Hids & Hrecent).
    change (streamAll env (t :: tweets) w)
      with (streamAll env tweets (snd (on_data env (Post t) w))).
    destruct (IH (snd (on_data env (Post t) w))) as (IHids & IHrecent).
    + rewrite Hids. exact Htweets.
    + rewrite IHids, IHrecent, Hids, Hrecent. split; reflexivity.
Qed.

End Gates.

(** ** C4: the window holds the last 20 ids *)

(** C4. After a run of more than 20 streamed posts with distinct ids
    (all new to the window, all by streamed authors), [recentTweets]
    holds exactly the last 20 of these ids in the order they came, and
    after each post of the run its length is at most 20. *)
Theorem dedup_window_keeps_last_20 (env : Env) (tweets : list Tweet) (w : World) :
  List.length (recentTweets w) <= 20 ->
  Forall (fun t => JS.includes (user_id_str (user t)) (utils_ids w) = true) tweets ->
  NoDup (recentTweets w ++ map id_str tweets)%list ->
  20 < List.length tweets ->
  recentTweets (streamAll env tweets w) = lastn 20 (map id_str tweets)
  /\ forall k, List.length (recentTweets (streamAll env (firstn k tweets) w)) <= 20.
Proof.
  intros Hlen Hall Hnd Hmany. split.
  - destruct (streamAll_window env tweets w Hall) as (_ & ->).
    rewrite dedupAll_distinct by assumption.
    apply lastn_app_long. rewrite length_map. lia.
  - intros k.
    destruct (streamAll_window env (firstn k tweets) w) as (_ & ->).
    + apply Forall_forall. intros t Ht. rewrite Forall_forall in Hall.
      apply Hall. rewrite <- (firstn_skipn k tweets). apply in_or_app. now left.
    + now apply dedupAll_length.
Qed.

Lemma distinct_NoDup (xs : list string) : distinct xs = true -> NoDup xs.
Proof.
  induction xs as [|x xs IH]; simpl; intros H; constructor.
  - apply andb_prop in H. destruct H as [H _].
    apply includes_false_iff. now destruct (JS.includes x xs).
  - apply IH. apply andb_prop in H. tauto.
Qed.

Lemma dedup_window_keeps_last_20_witness :
  recentTweets (streamAll Sample.env (Sample.tweetsUpTo 23) Sample.world)
  = lastn 20 (map id_str (Sample.tweetsUpTo 23))
  /\ forall k,
      List.length
        (recentTweets (streamAll Sample.env (firstn k (Sample.tweetsUpTo 23)) Sample.world))
      <= 20.
Proof.
  apply (dedup_window_keeps_last_20 Sample.env (Sample.tweetsUpTo 23) Sample.world).
  - vm_compute. lia.
  - repeat constructor.
  - apply distinct_NoDup. vm_compute. reflexivity.
  - vm_compute. lia.
Defined.

(** ** Archival and delivery *)

Section Delivery.

Import TweetHandler TwitterClient.

Variable env : Env.

Lemma dispatch_calls (t : Tweet) (ms : list MediaEntry) (str : string) (w : World) :
  send env t str = None ->
  dispatch env t ms str w = (Normal tt, emit (chain env t ms str) w).
Proof.
  intros Hsend.
  unfold dispatch, chain, bind, call, then_catch, unhandled, discordClient_send,
    bind, call, ret.
  rewrite length_map.
  destruct (promiseSome env (map (fun m => processMediaEntry m (id_str t)) ms));
    simpl; rewrite Hsend; rewrite ?emit_emit; reflexivity.
Qed.

Lemma deliver_calls (t : Tweet) (manual : bool)
      (ms : list MediaEntry) (str : string) (w : World) :
  writeFileSync env (archivePath t manual) = None ->
  nonSelfReply t = false ->
  normalize env t = Normal (ms, str) ->
  send env t str = None ->
  deliver env t manual w =
  (Normal tt, emit (WriteFileSync (archivePath t manual) t :: chain env t ms str) w).
Proof.
  intros Hwrite Hreply Hnorm Hsend.
  unfold deliver, bind, call, liftC. rewrite Hwrite, Hreply, Hnorm. simpl.
  rewrite dispatch_calls by assumption. now rewrite emit_emit.
Qed.

(** Whatever comes after, the archive is written first. *)
Lemma deliver_archives (t : Tweet) (manual : bool) :
  exists (c : Completion unit) (rest : list Call),
    forall w, deliver env t manual w =
              (c, emit (WriteFileSync (archivePath t manual) t :: rest) w).
Proof.
  assert (Hk : tracer
                 (match writeFileSync env (archivePath t manual) with
                  | Some e => throw e
                  | None =>
                      if nonSelfReply t then ret tt
                      else bind (liftC (normalize env t))
                                (fun r => dispatch env t (fst r) (snd r))
                  end)).
  { repeat tracer_step. apply dispatch_tracer. }
  destruct Hk as (c & rest & Hk). exists c, rest. intros w.
  unfold deliver, bind at 1, call. rewrite Hk. now rewrite emit_emit.
Qed.

Lemma sends_chain (t : Tweet) (ms : list MediaEntry) (str : string) :
  sends (chain env t ms str) = [(t, str)].
Proof.
  unfold chain.
  destruct (promiseSome env (map (fun m => processMediaEntry m (id_str t)) ms));
    reflexivity.
Qed.

End Delivery.

(** ** C1: what the manual path skips *)

(** C1, as the code has it. A post injected through the manual path
    skips the dedup window only. When its author is streamed it is
    archived first, its outcome and its calls are the same whatever the
    window holds, the window is left as it was, and it is delivered once
    when nothing on the way fails. When its author is not streamed the
    author filter drops it like any other post: nothing is archived and
    nothing is sent. *)
Theorem manual_post_skips_only_the_window (env : Env) (t : Tweet) (w : World) :
  (JS.includes (user_id_str (user t)) (utils_ids w) = false ->
   TwitterClient.on_post env (Post t) w = (Normal tt, w))
  /\ (JS.includes (user_id_str (user t)) (utils_ids w) = true ->
      recentTweets (snd (TwitterClient.on_post env (Post t) w)) = recentTweets w
      /\ (exists rest,
             newCalls (TwitterClient.on_post env (Post t)) w
             = WriteFileSync (TweetHandler.archivePath t true) t :: rest)
      /\ (forall recent,
             fst (TwitterClient.on_post env (Post t) (withWindow recent w))
             = fst (TwitterClient.on_post env (Post t) w)
             /\ newCalls (TwitterClient.on_post env (Post t)) (withWindow recent w)
                = newCalls (TwitterClient.on_post env (Post t)) w)
      /\ (forall ms str,
             writeFileSync env (TweetHandler.archivePath t true) = None ->
             TweetHandler.nonSelfReply t = false ->
             TweetHandler.normalize env t = Normal (ms, str) ->
             send env t str = None ->
             sends (newCalls (TwitterClient.on_post env (Post t)) w) = [(t, str)])).
Proof.
  unfold TwitterClient.on_post. split; intros Hauthor.
  - now apply tweetHandler_unregistered.
  - destruct (deliver_archives env t true) as (c & rest & Hdeliver).
    assert (Hrun : forall w', utils_ids w' = utils_ids w ->
                     TweetHandler.tweetHandler env (Post t) true w'
                     = (c, emit (WriteFileSync (TweetHandler.archivePath t true) t :: rest) w')).
    { intros w' Hids. rewrite tweetHandler_manual by now rewrite Hids.
      apply Hdeliver. }
    pose proof (Hrun w eq_refl) as Hw.
    repeat split.
    + now rewrite Hw.
    + exists rest. eapply newCalls_emit, Hw.
    + now rewrite Hw, (Hrun (withWindow recent w) eq_refl).
    + rewrite (newCalls_emit _ _ _ _ Hw).
      now rewrite (newCalls_emit _ _ _ _ (Hrun (withWindow recent w) eq_refl)).
    + intros ms str Hwrite Hreply Hnorm Hsend.
      rewrite tweetHandler_manual in Hw by assumption.
      rewrite (deliver_calls env t true ms str w Hwrite Hreply Hnorm Hsend) in Hw.
      erewrite newCalls_emit.
      2:{ rewrite tweetHandler_manual by assumption.
          apply (deliver_calls env t true ms str w Hwrite Hreply Hnorm Hsend). }
      change (sends ([WriteFileSync (TweetHandler.archivePath t true) t]
                       ++ chain env t ms str)%list = [(t, str)]).
      rewrite sends_app. apply sends_chain.
Qed.

(** The claim as the spec states it fails: a manual post of an author
    who is not streamed is not archived. *)
Lemma manual_post_of_unregistered_author_is_dropped :
  ~ (forall (env : Env) (t : Tweet) (w : World),
        exists rest,
          newCalls (TwitterClient.on_post env (Post t)) w
          = WriteFileSync (TweetHandler.archivePath t true) t :: rest).
Proof.
  intros H.
  destruct (H Sample.env (Sample.plain "100" Sample.mallory "hello") Sample.world)
    as (rest & Hrest).
  vm_compute in Hrest. discriminate Hrest.
Qed.

Lemma manual_post_skips_only_the_window_witness :
  recentTweets (snd (TwitterClient.on_post Sample.env (Post Sample.retweet) Sample.world))
  = ["100"]
  /\ sends (newCalls (TwitterClient.on_post Sample.env (Post Sample.retweet)) Sample.world)
     = [(Sample.retweet, snd Sample.retweetNormalized)].
Proof.
  destruct (manual_post_skips_only_the_window Sample.env Sample.retweet Sample.world)
    as (_ & Htracked).
  destruct (Htracked eq_refl) as (Hwindow & _ & _ & Hsent).
  split.
  - exact Hwindow.
  - apply (Hsent (fst Sample.retweetNormalized) (snd Sample.retweetNormalized));
      reflexivity.
Defined.

(** ** C3: one delivery, whether the media batch resolves or rejects *)



(** Both continuations deliver. *)
Example delivery_after_resolved_batch :
  sends (newCalls (TweetHandler.tweetHandler Sample.env (Post Sample.retweet) false)
                  Sample.world)
  = [(Sample.retweet, snd Sample.retweetNormalized)].
Proof. vm_compute. reflexivity. Qed.

(** Beside C3: [.catch] is chained after [.then], so when the batch
    resolves and the delivery call throws in the success continuation,
    the failure continuation runs as well: the error is logged, the
    delivery is called a second time, and what it throws then is left
    unhandled. *)
Theorem delivery_repeated_when_send_throws
        (env : Env) (t : Tweet) (manual : bool) (w : World)
        (ms : list MediaEntry) (str : string) (e : JsError) :
  JS.includes (user_id_str (user t)) (utils_ids w) = true ->
  (manual = true \/ JS.includes (id_str t) (recentTweets w) = false) ->
  writeFileSync env (TweetHandler.archivePath t manual) = None ->
  TweetHandler.nonSelfReply t = false ->
  TweetHandler.normalize env t = Normal (ms, str) ->
  promiseSome env (map (fun m => TweetHandler.processMediaEntry m (id_str t)) ms)
  = Resolved tt ->
  send env t str = Some e ->
  newCalls (TweetHandler.tweetHandler env (Post t) manual) w
  = [WriteFileSync (TweetHandler.archivePath t manual) t;
     PromiseSome (List.length ms);
     DiscordSend t str;
     Console Err [LErr e];
     DiscordSend t str;
     UnhandledRejection e].
Proof.
  intros Hauthor Hgate Hwrite Hreply Hnorm Hbatch Hsend.
  assert (Hdeliver : forall w',
             TweetHandler.deliver env t manual w'
             = (Normal tt,
                emit [WriteFileSync (TweetHandler.archivePath t manual) t;
                      PromiseSome (List.length ms);
                      DiscordSend t str;
                      Console Err [LErr e];
                      DiscordSend t str;
                      UnhandledRejection e] w')).
  { intros w'. unfold TweetHandler.deliver, bind, call, liftC.
    rewrite Hwrite, Hreply, Hnorm. simpl.
    unfold TweetHandler.dispatch, bind, call. rewrite Hbatch, length_map.
    unfold then_catch, unhandled, TweetHandler.discordClient_send, bind, call, throw.
    rewrite Hsend. simpl. rewrite !emit_emit. reflexivity. }
  destruct manual.
  - eapply newCalls_emit. rewrite tweetHandler_manual by assumption.
    apply Hdeliver.
  - destruct Hgate as [Hmanual | Hnew]; [discriminate|].
    unfold newCalls. rewrite tweetHandler_streamed by assumption.
    unfold TweetHandler.dedup. rewrite Hnew, Hdeliver.
    simpl. apply skipn_own_length.
Qed.

Lemma delivery_repeated_when_send_throws_witness :
  sends (newCalls (TweetHandler.tweetHandler Sample.envThrowing (Post Sample.retweet) true)
                  Sample.world)
  = [(Sample.retweet, snd Sample.retweetNormalized);
     (Sample.retweet, snd Sample.retweetNormalized)].
Proof.
  rewrite (delivery_repeated_when_send_throws
             Sample.envThrowing Sample.retweet true Sample.world
             (fst Sample.retweetNormalized) (snd Sample.retweetNormalized)
             (ExternalError "send"));
    try reflexivity.
  left. reflexivity.
Defined.

Example delivery_call_that_throws_is_repeated :
  sends (newCalls (TweetHandler.tweetHandler Sample.envThrowing (Post Sample.retweet) false)
                  Sample.world)
  = [(Sample.retweet, snd Sample.retweetNormalized);
     (Sample.retweet, snd Sample.retweetNormalized)].
Proof. vm_compute. reflexivity. Qed.

(** ** C2: the reaction to ['connection aborted'] *)

(** C2, as the code has it. The handler of ['connection aborted']
    empties [utils.ids]; [recentTweets] keeps what it held. *)
Theorem connection_aborted_clears_ids_only (w : World) :
  utils_ids (snd (TwitterClient.on_connection_aborted w)) = []
  /\ recentTweets (snd (TwitterClient.on_connection_aborted w)) = recentTweets w.
Proof. split; reflexivity. Qed.

(** The claim as the spec states it fails: the window is not emptied. *)
Lemma connection_aborted_keeps_window :
  ~ (forall w : World,
        utils_ids (snd (TwitterClient.on_connection_aborted w)) = []
        /\ recentTweets (snd (TwitterClient.on_connection_aborted w)) = []).
Proof.
  intros H. destruct (H Sample.world) as (_ & Hwindow).
  vm_compute in Hwindow. discriminate Hwindow.
Qed.

(** ** C5: the reaction to an HTTP error *)

(** C5. On ['connection error http'] the process exits (with code 1)
    exactly when the status code is 401; for any other code the handler
    returns and has done nothing: no call, no change of the world. *)
Theorem http_error_exits_only_on_401 (httpStatusCode : Z) (w : World) :
  (fst (TwitterClient.on_connection_error_http httpStatusCode w) = Exit 1%Z
   <-> httpStatusCode = 401%Z)
  /\ (httpStatusCode <> 401%Z ->
      TwitterClient.on_connection_error_http httpStatusCode w = (Normal tt, w)).
Proof.
  unfold TwitterClient.on_connection_error_http.
  destruct (Z.eqb_spec httpStatusCode 401) as [Heq | Hneq].
  - split; [split; [intros _; exact Heq | intros _; reflexivity] | intros H; contradiction].
  - split; [split; [intros H; discriminate H | intros H; contradiction] | intros _; reflexivity].
Qed.

Lemma http_error_exits_only_on_401_witness :
  fst (TwitterClient.on_connection_error_http 401%Z Sample.world) = Exit 1%Z
  /\ TwitterClient.on_connection_error_http 503%Z Sample.world = (Normal tt, Sample.world).
Proof.
  split.
  - apply (http_error_exits_only_on_401 401%Z Sample.world). reflexivity.
  - apply (http_error_exits_only_on_401 503%Z Sample.world). lia.
Defined.

(** ** C9: the extended fields of a truncated post *)



(** ** C10: deletion notices without a status *)

(** C10. [deleteTweet] returns at once on a payload that is absent,
    has no [delete], or has a [delete] without [status]: it completes
    normally, looks nothing up, sends no delete request and leaves the
    world as it was. *)
Theorem deleteTweet_returns_without_status
        (env : Env) (p : option Payload) (w : World) :
  withoutStatus p = true ->
  TweetHandler.deleteTweet env p w = (Normal tt, w).
Proof.
  intros H. destruct p as [[d | t |] |]; try reflexivity.
  unfold withoutStatus in H. unfold TweetHandler.deleteTweet.
  destruct (status d); [discriminate H | reflexivity].
Qed.

Lemma deleteTweet_returns_without_status_witness :
  TweetHandler.deleteTweet Sample.env (Some (Deletion (mkDelete None))) Sample.world
  = (Normal tt, Sample.world)
  /\ TweetHandler.deleteTweet Sample.env None Sample.world = (Normal tt, Sample.world).
Proof.
  split.
  - apply (deleteTweet_returns_without_status Sample.env
             (Some (Deletion (mkDelete None))) Sample.world).
    reflexivity.
  - apply (deleteTweet_returns_without_status Sample.env None Sample.world).
    reflexivity.
Defined.

(** With a status the lookup is the first thing done. *)
Lemma deleteTweet_looks_up_status (env : Env) (st : DeleteStatus) (w : World) :
  exists rest,
    newCalls (TweetHandler.deleteTweet env (Some (Deletion (mkDelete (Some st))))) w
    = FindOne (status_id_str st) :: rest.
Proof.
  assert (Hk : tracer
                 (then_catch (findOne env (status_id_str st))
                    (fun result =>
                       match result with
                       | None => ret tt
                       | Some record =>
                           match messages record with
                           | None => ret tt
                           | Some msgs =>
                               bind
                                 (forEach
                                    (fun msg =>
                                       call (Fetch (TweetHandler.deleteUri msg) "DELETE"
                                                   ("Bot " ++ DISCORD_BOT_TOKEN env)))
                                    msgs)
                                 (fun _ =>
                                    forEach
                                      (fun msg =>
                                         match fetch env (TweetHandler.deleteUri msg) with
                                         | Resolved _ => ret tt
                                         | Rejected e => call (Console Err [LErr e])
                                         end)
                                      msgs)
                           end
                       end)
                    (fun err => call (Console Err [LErr err])))).
  { repeat tracer_step. }
  destruct Hk as (c & rest & Hk). exists rest.
  apply newCalls_emit with (c := c).
  unfold TweetHandler.deleteTweet. simpl. unfold bind at 1, call.
  rewrite Hk. now rewrite emit_emit.
Qed.

(** Beside C10: the exported handler reads
    [tweet.delete.status.id_str] for its debug line (line 22) before it
    calls [deleteTweet]; on a notice whose [delete] has no [status] it
    throws there, and [deleteTweet] is not reached. *)
Theorem tweetHandler_throws_without_status
        (env : Env) (d : Delete) (manual : bool) (w : World) :
  status d = None ->
  exists e, TweetHandler.tweetHandler env (Deletion d) manual w = (Throw e, w).
Proof.
  intros H. unfold TweetHandler.tweetHandler. rewrite H.
  eexists. reflexivity.
Qed.

Lemma tweetHandler_throws_without_status_witness :
  exists e,
    TweetHandler.tweetHandler Sample.env (Deletion (mkDelete None)) false Sample.world
    = (Throw e, Sample.world).
Proof.
  apply (tweetHandler_throws_without_status Sample.env (mkDelete None) false Sample.world).
  reflexivity.
Defined.

(** ** C8: connect *)

Section Connect.

Import TwitterClient.

Variable env : Env.

Lemma connect_calls (w : World) :
  newCalls (connect env) w =
  ((if existingConnection w then closing else []) ++ FeedsFind :: afterFind env)%list.
Proof.
  unfold newCalls, connect, close, afterFind, existingConnection.
  unfold on_connection_aborted.
  unfold bind, get, set_reload, set_ids, set_connection, call, then_catch,
    unhandled, ret, throw, emit.
  destruct w as [ids0 reload0 recent0 conn0 trace0]. simpl.
  destruct conn0 as [[[|]]|]; simpl;
    (destruct (feedsFind env) as [results | err]; simpl;
     [ destruct (map twitter_id results) as [|id ids] eqn:Hids; simpl;
       [ | destruct (streamThrows env (id :: ids)); simpl ]
     | ]);
    rewrite <- ?app_assoc; simpl; apply skipn_own_length.
Qed.

Lemma connect_ids (w : World) (results : list Feed) :
  feedsFind env = Resolved results ->
  utils_ids (snd (connect env w)) = map twitter_id results.
Proof.
  intros Hfind.
  unfold connect, close.
  unfold on_connection_aborted.
  unfold bind, get, set_reload, set_ids, set_connection, call, then_catch,
    unhandled, ret, throw, emit.
  destruct w as [ids0 reload0 recent0 conn0 trace0]. simpl. rewrite Hfind.
  destruct conn0 as [[[|]]|]; simpl;
    (destruct (map twitter_id results) as [|id ids] eqn:Hids; simpl;
     [ | destruct (streamThrows env (id :: ids)); simpl ]);
    reflexivity.
Qed.

End Connect.

(** C8. [connect] closes the existing connection before anything else
    (the listener of ['connection aborted'] writes its line inside the
    close), then asks the database for the feeds. When the answer comes,
    [utils.ids] is the list of their twitter ids; with no id no stream
    is opened; with ids exactly one stream is opened, on
    [statuses/filter], following exactly these ids, with
    [stall_warnings] on. When the database fails no stream is opened. *)
Theorem connect_closes_reloads_then_streams (env : Env) (w : World) :
  let cs := newCalls (TwitterClient.connect env) w in
  (if existingConnection w
   then exists rest,
       cs = TwitterClose
              :: Console Warn [LStr "twitter: connection aborted"]
              :: FeedsFind :: rest
       /\ ~ In TwitterClose rest
   else exists rest, cs = FeedsFind :: rest /\ ~ In TwitterClose rest)
  /\ (forall results,
         feedsFind env = Resolved results ->
         utils_ids (snd (TwitterClient.connect env w)) = map twitter_id results
         /\ (map twitter_id results = [] -> streams cs = [])
         /\ (map twitter_id results <> [] ->
             streams cs = [("statuses/filter", map twitter_id results, true)]))
  /\ (forall err, feedsFind env = Rejected err -> streams cs = []).
Proof.
  intros cs. unfold cs. rewrite connect_calls.
  assert (Hnoclose : ~ In TwitterClose (afterFind env)).
  { unfold afterFind. destruct (feedsFind env) as [results | err].
    - destruct (map twitter_id results) as [|id ids].
      + simpl. intuition discriminate.
      + destruct (streamThrows env (id :: ids)); simpl; intuition discriminate.
    - simpl. intuition discriminate. }
  assert (Hstreams : forall pre, streams pre = [] ->
            streams (pre ++ FeedsFind :: afterFind env)%list = streams (afterFind env)).
  { intros pre Hpre. rewrite streams_app, Hpre. reflexivity. }
  assert (Hpre : streams (if existingConnection w then closing else []) = []).
  { destruct (existingConnection w); reflexivity. }
  split; [|split].
  - destruct (existingConnection w); exists (afterFind env); split;
      solve [reflexivity | assumption].
  - intros results Hfind. split; [|split].
    + now apply connect_ids.
    + intros Hnone. rewrite (Hstreams _ Hpre). unfold afterFind.
      rewrite Hfind, Hnone. reflexivity.
    + intros Hsome. rewrite (Hstreams _ Hpre). unfold afterFind. rewrite Hfind.
      destruct (map twitter_id results) as [|id ids]; [congruence|].
      destruct (streamThrows env (id :: ids)); reflexivity.
  - intros err Herr. rewrite (Hstreams _ Hpre). unfold afterFind.
    rewrite Herr. reflexivity.
Qed.

Lemma connect_closes_reloads_then_streams_witness :
  utils_ids (snd (TwitterClient.connect Sample.env Sample.world)) = ["7"; "8"]
  /\ streams (newCalls (TwitterClient.connect Sample.env) Sample.world)
     = [("statuses/filter", ["7"; "8"], true)].
Proof.
  destruct (connect_closes_reloads_then_streams Sample.env Sample.world)
    as (_ & Hfound & _).
  destruct (Hfound [mkFeed "7"; mkFeed "8"] eq_refl) as (Hids & _ & Hstream).
  split.
  - exact Hids.
  - apply Hstream. discriminate.
Defined.

(** ** C7: the retention sweep *)

Section Sweep.

Import TwitterClient.

Variable env : Env.

Lemma joinFolder_injective (f g : string) : joinFolder f = joinFolder g -> f = g.
Proof. unfold joinFolder. simpl. intros H. now injection H. Qed.

Lemma expired_iff (file : string) :
  expired env file = true <->
  exists ctime, stat env (joinFolder file) = inr ctime
                /\ (now env (joinFolder file) > ctime + 2419200000)%Z.
Proof.
  unfold expired, retention. destruct (stat env (joinFolder file)) as [e | ctime].
  - split; [discriminate | intros (c & Hc & _); discriminate].
  - rewrite Z.gtb_gt. split.
    + intros H. now exists ctime.
    + intros (c & Hc & H). now injection Hc as ->.
Qed.

Lemma stats_calls (files : list string) (w : World) :
  forEach (fun file => call (Stat (joinFolder file))) files w
  = (Normal tt, emit (map (fun file => Stat (joinFolder file)) files) w).
Proof.
  revert w. induction files as [|file files IH]; intros w; simpl.
  - unfold ret. now rewrite emit_nil.
  - unfold bind, call. rewrite IH. now rewrite emit_emit.
Qed.

(** The callbacks of [fs.stat]: a file is unlinked exactly when it has
    expired, the error of a failed [fs.stat] is logged, and no callback
    stops the ones after it. *)
Lemma statCallbacks_calls (files : list string) :
  exists (unlinked : list string) (cs : list Call),
    (forall w, statCallbacks env files w = (Normal unlinked, emit cs w))
    /\ (forall p, In (Unlink p) cs <->
                  exists file, In file files /\ p = joinFolder file
                               /\ expired env file = true)
    /\ (forall file e, In file files -> stat env (joinFolder file) = inl e ->
                       In (Console Err [LErr e]) cs).
Proof.
  induction files as [|file files (unlinked & cs & Hrun & Hunlink & Hlog)].
  - exists [], []. split; [|split].
    + intros w. simpl. unfold ret. now rewrite emit_nil.
    + intros p. split; [intros [] | intros (file & [] & _)].
    + intros file e [].
  - assert (Hhead : exists (b : bool) (c : list Call),
               (forall w, statCallback env file w = (Normal b, emit c w))
               /\ (forall p, In (Unlink p) c <->
                             p = joinFolder file /\ expired env file = true)
               /\ (forall e, stat env (joinFolder file) = inl e ->
                             In (Console Err [LErr e]) c)).
    { unfold statCallback, expired.
      destruct (stat env (joinFolder file)) as [e | ctime].
      - exists false, [Console Err [LErr e]]. split; [|split].
        + intros w. reflexivity.
        + intros p. split.
          * intros [Hp | []]. discriminate Hp.
          * intros (_ & Hp). discriminate Hp.
        + intros e' He'. injection He' as ->. now left.
      - destruct (Z.gtb (now env (joinFolder file)) (ctime + retention)).
        + exists true, [Unlink (joinFolder file)]. split; [|split].
          * intros w. reflexivity.
          * intros p. split.
            -- intros [Hp | []]. injection Hp as <-. now split.
            -- intros (-> & _). now left.
          * intros e' He'. discriminate He'.
        + exists false, []. split; [|split].
          * intros w. unfold ret. now rewrite emit_nil.
          * intros p. split.
            -- intros [].
            -- intros (_ & Hp). discriminate Hp.
          * intros e' He'. discriminate He'. }
    destruct Hhead as (b & c & Hhead & Hheadunlink & Hheadlog).
    exists (if b then file :: unlinked else unlinked), (c ++ cs)%list.
    split; [|split].
    + intros w. simpl. unfold bind, ret. rewrite Hhead, Hrun.
      now rewrite emit_emit.
    + intros p. rewrite in_app_iff, Hheadunlink, Hunlink. split.
      * intros [(-> & Hexp) | (f & Hf & -> & Hexp)].
        -- exists file. repeat split; [now left | assumption].
        -- exists f. repeat split; [now right | assumption].
      * intros (f & [<- | Hf] & -> & Hexp).
        -- left. now split.
        -- right. exists f. now repeat split.
    + intros f e [<- | Hf] He; apply in_or_app.
      * left. now apply Hheadlog.
      * right. now apply (Hlog f e).
Qed.

Lemma unlinkCallbacks_calls (unlinked : list string) :
  exists cs : list Call,
    (forall w, forEach (unlinkCallback env) unlinked w = (Normal tt, emit cs w))
    /\ (forall c, In c cs -> exists args, c = Console Err args).
Proof.
  induction unlinked as [|file unlinked (cs & Hrun & Hconsole)].
  - exists []. split.
    + intros w. simpl. unfold ret. now rewrite emit_nil.
    + intros c [].
  - exists ((match unlink env (joinFolder file) with
             | Some e => Console Err [LErr e]
             | None => Console Err [LNull]
             end) :: cs).
    split.
    + intros w. simpl. unfold bind, unlinkCallback at 1.
      destruct (unlink env (joinFolder file)); unfold call;
        rewrite Hrun; now rewrite emit_emit.
    + intros c [<- | Hc]; [|now apply Hconsole].
      destruct (unlink env (joinFolder file)); eexists; reflexivity.
Qed.

End Sweep.

(** C7. When the folder can be listed, the sweep completes and, for
    every file of the listing: [fs.stat] is called on it; [fs.unlink] is
    called on it exactly when its [fs.stat] succeeds and the time read
    in the callback is greater than the creation time plus 2419200000
    ms (28 days), so a newer file is kept; and the error of a failed
    [fs.stat] is logged, the other files being examined all the same. *)
Theorem removeOldFiles_unlinks_expired_files
        (env : Env) (w : World) (files : list string) :
  readdir env "./tweets" = inr files ->
  let cs := newCalls (TwitterClient.removeOldFiles env) w in
  fst (TwitterClient.removeOldFiles env w) = Normal tt
  /\ forall file, In file files ->
       In (Stat (TwitterClient.joinFolder file)) cs
       /\ (In (Unlink (TwitterClient.joinFolder file)) cs <->
           exists ctime,
             stat env (TwitterClient.joinFolder file) = inr ctime
             /\ (now env (TwitterClient.joinFolder file) > ctime + 2419200000)%Z)
       /\ (forall e, stat env (TwitterClient.joinFolder file) = inl e ->
                     In (Console Err [LErr e]) cs).
Proof.
  intros Hreaddir cs.
  destruct (statCallbacks_calls env files) as (unlinked & cs2 & Hrun2 & Hunlink & Hlog).
  destruct (unlinkCallbacks_calls env unlinked) as (cs3 & Hrun3 & Hconsole).
  assert (Hrun : TwitterClient.removeOldFiles env w =
                 (Normal tt,
                  emit (Readdir "./tweets"
                          :: map (fun file => Stat (TwitterClient.joinFolder file)) files
                          ++ cs2 ++ cs3)%list w)).
  { unfold TwitterClient.removeOldFiles. rewrite Hreaddir.
    unfold bind, call. rewrite stats_calls, Hrun2, Hrun3.
    rewrite !emit_emit. reflexivity. }
  unfold cs. rewrite (newCalls_emit _ _ _ _ Hrun), Hrun. clear cs.
  split; [reflexivity|]. intros file Hfile. split; [|split].
  - right. apply in_or_app. left.
    apply (in_map (fun file => Stat (TwitterClient.joinFolder file)) files file Hfile).
  - rewrite <- expired_iff. split.
    + intros [H | H]; [discriminate H|].
      apply in_app_or in H. destruct H as [H | H].
      { apply in_map_iff in H. destruct H as (f & H & _). discriminate H. }
      apply in_app_or in H. destruct H as [H | H].
      * apply Hunlink in H. destruct H as (f & _ & Heq & Hexp).
        apply joinFolder_injective in Heq. now subst.
      * apply Hconsole in H. destruct H as (args & H). discriminate H.
    + intros Hexp. right. apply in_or_app. right. apply in_or_app. left.
      apply Hunlink. exists file. now repeat split.
  - intros e He. right. apply in_or_app. right. apply in_or_app. left.
    now apply (Hlog file e).
Qed.

Lemma removeOldFiles_unlinks_expired_files_witness :
  In (Unlink "tweets/old.json")
     (newCalls (TwitterClient.removeOldFiles Sample.env) Sample.world)
  /\ In (Console Err [LErr (ExternalError "ENOENT")])
        (newCalls (TwitterClient.removeOldFiles Sample.env) Sample.world).
Proof.
  destruct (removeOldFiles_unlinks_expired_files Sample.env Sample.world
              ["old.json"; "new.json"; "gone.json"] eq_refl) as (_ & Hfiles).
  split.
  - destruct (Hfiles "old.json") as (_ & Hunlink & _); [simpl; tauto|].
    apply Hunlink. exists 1000%Z. split; [reflexivity | cbn; lia].
  - destruct (Hfiles "gone.json") as (_ & _ & Hlog); [simpl; tauto|].
    apply Hlog. reflexivity.
Defined.

(** A file younger than 28 days stays. *)
Example removeOldFiles_keeps_new_file :
  ~ In (Unlink "tweets/new.json")
       (newCalls (TwitterClient.removeOldFiles Sample.env) Sample.world).
Proof. vm_compute. intuition discriminate. Qed.

(** ** C6: a media url is wrapped once *)

Section Replace.

Lemma append_assoc' (a b c : string) : (a ++ b) ++ c = a ++ (b ++ c).
Proof. induction a as [|x a IH]; simpl; [reflexivity | now rewrite IH]. Qed.

Lemma startsWith_split (u s : string) :
  JS.startsWith u s = true -> s = u ++ JS.drop (String.length u) s.
Proof.
  revert s. induction u as [|a u IH]; intros s H.
  - reflexivity.
  - destruct s as [|b s]; simpl in H; [discriminate H|].
    apply andb_prop in H. destruct H as [Hab Hrest].
    apply Ascii.eqb_eq in Hab. subst b. simpl. f_equal. now apply IH.
Qed.

(** The text splits at the position [indexOf] gives. *)
Lemma indexOf_split (u s : string) (i : nat) :
  JS.indexOf u s = Some i ->
  s = JS.take i s ++ u ++ JS.drop (i + String.length u) s.
Proof.
  revert i. induction s as [|c s IH]; intros i H.
  - simpl in H. destruct (JS.startsWith u "") eqn:Hstart; [|discriminate H].
    injection H as <-. now apply startsWith_split.
  - cbn [JS.indexOf] in H. destruct (JS.startsWith u (String c s)) eqn:Hstart.
    + injection H as <-. now apply startsWith_split.
    + destruct (JS.indexOf u s) as [j|]; [|discriminate H].
      injection H as <-. simpl. f_equal. now apply IH.
Qed.

Lemma GetSubstitution_plain (matched before after template : string) :
  JS.hasDollar template = false ->
  JS.GetSubstitution matched before after template = template.
Proof.
  induction template as [|a t IH]; intros H; [reflexivity|].
  simpl in H. apply orb_false_elim in H. destruct H as [Ha Ht].
  cbn [JS.GetSubstitution]. rewrite Ha. f_equal. now apply IH.
Qed.

Lemma hasDollar_append (a b : string) :
  JS.hasDollar (a ++ b) = (JS.hasDollar a || JS.hasDollar b)%bool.
Proof.
  induction a as [|x a IH]; simpl; [reflexivity|].
  now rewrite IH, orb_assoc.
Qed.

(** With an occurrence, the first one is wrapped and nothing else
    changes. *)
Lemma wrapFirst_found (text u : string) (i : nat) :
  JS.hasDollar u = false ->
  JS.indexOf u text = Some i ->
  wrapFirst text u
  = JS.take i text ++ "<" ++ u ++ ">" ++ JS.drop (i + String.length u) text.
Proof.
  intros Hplain Hindex. unfold wrapFirst, JS.replace. rewrite Hindex.
  rewrite GetSubstitution_plain.
  - f_equal. change ("<" ++ u ++ ">") with (String "<" (u ++ ">")).
    simpl. f_equal. apply append_assoc'.
  - change ("<" ++ u ++ ">") with (String "<" (u ++ ">")). simpl.
    rewrite hasDollar_append, Hplain. reflexivity.
Qed.

Lemma wrapFirst_missing (text u : string) :
  JS.indexOf u text = None -> wrapFirst text u = text.
Proof. intros H. unfold wrapFirst, JS.replace. now rewrite H. Qed.

End Replace.

Section Escaping.

Import TweetHandler.

(** The text that the loops started from. *)
Variable text : string.

Lemma escape_wrappedOnce (u : string) (x : Extraction) :
  wrappedOnce text x -> wrappedOnce text (escape u x).
Proof.
  intros (Hnd & Htext). unfold escape.
  destruct (JS.includes u (escapedUrls x)) eqn:Hin; simpl; [now split|].
  split.
  - cbn [escapedUrls]. unfold JS.push.
    apply NoDup_app; [assumption | repeat constructor; intros [] |].
    intros v Hv [<- | []]. apply includes_false_iff in Hin. contradiction.
  - cbn [escapedUrls modifiedText]. unfold JS.push.
    rewrite fold_left_app. cbn [fold_left]. now rewrite <- Htext.
Qed.

Lemma escape_urls (u : string) (x : Extraction) (v : string) :
  In v (escapedUrls (escape u x)) <-> v = u \/ In v (escapedUrls x).
Proof.
  unfold escape. destruct (JS.includes u (escapedUrls x)) eqn:Hin; simpl.
  - apply includes_true_iff in Hin. split; [tauto|]. intros [-> | H]; assumption.
  - unfold JS.push. rewrite in_app_iff. simpl. split.
    + intros [H | [<- | []]]; tauto.
    + intros [-> | H]; tauto.
Qed.

Lemma photos_wrappedOnce (ms : list Media) (x : Extraction) :
  wrappedOnce text x -> wrappedOnce text (fold_left photo ms x).
Proof.
  revert x. induction ms as [|m ms IH]; intros x Hx; [assumption|].
  simpl. apply IH. unfold photo. apply escape_wrappedOnce. exact Hx.
Qed.

Lemma photos_urls (ms : list Media) (x : Extraction) (v : string) :
  In v (escapedUrls (fold_left photo ms x)) <->
  In v (escapedUrls x) \/ exists m, In m ms /\ url m = v.
Proof.
  revert x. induction ms as [|m ms IH]; intros x; simpl.
  - split; [tauto | intros [H | (m & [] & _)]; assumption].
  - rewrite IH. unfold photo. rewrite escape_urls. simpl. split.
    + intros [[-> | H] | (m' & Hm' & Hv)].
      * right. exists m. tauto.
      * now left.
      * right. exists m'. tauto.
    + intros [H | (m' & [<- | Hm'] & Hv)].
      * left. now right.
      * left. left. now symmetry.
      * right. now exists m'.
Qed.

Lemma gifs_wrappedOnce (ms : list Media) (x y : Extraction) :
  wrappedOnce text x -> gifs x ms = Normal y -> wrappedOnce text y.
Proof.
  revert x. induction ms as [|m ms IH]; intros x Hx Hrun; simpl in Hrun.
  - injection Hrun as <-. exact Hx.
  - unfold animated_gif in Hrun.
    destruct (video_info m) as [vi|]; [|discriminate Hrun].
    destruct (variants vi) as [|v vs]; [discriminate Hrun|].
    eapply IH; [|exact Hrun]. apply escape_wrappedOnce. exact Hx.
Qed.

Lemma gifs_urls (ms : list Media) (x y : Extraction) (v : string) :
  gifs x ms = Normal y ->
  (In v (escapedUrls y) <->
   In v (escapedUrls x) \/ exists m, In m ms /\ url m = v).
Proof.
  revert x. induction ms as [|m ms IH]; intros x Hrun; simpl in Hrun.
  - injection Hrun as <-. split; [tauto | intros [H | (m & [] & _)]; assumption].
  - unfold animated_gif in Hrun.
    destruct (video_info m) as [vi|]; [|discriminate Hrun].
    destruct (variants vi) as [|va vs]; [discriminate Hrun|].
    rewrite (IH _ Hrun), escape_urls. simpl. split.
    + intros [[-> | H] | (m' & Hm' & Hv)].
      * right. exists m. tauto.
      * now left.
      * right. exists m'. tauto.
    + intros [H | (m' & [<- | Hm'] & Hv)].
      * left. now right.
      * left. left. now symmetry.
      * right. now exists m'.
Qed.

Lemma extract_wrappedOnce (ee : Entities) (x : Extraction) :
  extract (Some ee) text = Normal x ->
  wrappedOnce text x
  /\ forall v, In v (escapedUrls x) <->
               exists m, In m (media ee) /\ visited m = true /\ url m = v.
Proof.
  unfold extract. intros Hrun. split.
  - eapply gifs_wrappedOnce; [|exact Hrun].
    apply photos_wrappedOnce. split; [constructor | reflexivity].
  - intros v. rewrite (gifs_urls _ _ _ v Hrun), photos_urls. simpl.
    unfold visited. split.
    + intros [[[] | (m & Hm & Hv)] | (m & Hm & Hv)];
        apply filter_In in Hm; destruct Hm as (Hm & Htype);
        exists m; rewrite Htype; repeat split;
        solve [assumption | reflexivity | apply orb_true_r].
    + intros (m & Hm & Htype & Hv).
      apply orb_prop in Htype. destruct Htype as [Htype | Htype].
      * left. right. exists m. split; [|assumption].
        apply filter_In. now split.
      * right. exists m. split; [|assumption].
        apply filter_In. now split.
Qed.

End Escaping.

Lemma only_one_url (urls : list string) (u : string) :
  NoDup urls -> (forall v, In v urls <-> v = u) -> urls = [u].
Proof.
  intros Hnd Hall. destruct urls as [|a urls].
  - destruct (proj2 (Hall u) eq_refl).
  - assert (Ha : a = u) by (apply Hall; now left). subst a.
    destruct urls as [|b urls]; [reflexivity|].
    assert (Hb : b = u) by (apply Hall; right; now left). subst b.
    inversion Hnd as [|? ? Hnotin _]. exfalso. apply Hnotin. now left.
Qed.

Section MediaUrls.

Import TweetHandler.

(** The single-url case. After the two media loops, no url is recorded
    twice in [escapedUrls], the recorded urls are those of the photos
    and animated gifs, and the text is the decoded text with one
    [replace] per recorded url. When the media items carry one url [u]
    (without dollar sign) that occurs in the text, only its first
    occurrence is wrapped in [<>]: whatever stands before and after it,
    later occurrences included, is unchanged, however many media items
    carry [u]. Several urls are treated in the last part. *)
Theorem media_url_is_wrapped_once (ee : Entities) (text : string) (x : Extraction) :
  TweetHandler.extract (Some ee) text = Normal x ->
  NoDup (escapedUrls x)
  /\ (forall u, In u (escapedUrls x) <->
                exists m, In m (media ee) /\ visited m = true /\ url m = u)
  /\ modifiedText x = fold_left wrapFirst (escapedUrls x) text
  /\ (forall u i,
         JS.hasDollar u = false ->
         (exists m, In m (media ee) /\ visited m = true) ->
         (forall m, In m (media ee) -> visited m = true -> url m = u) ->
         JS.indexOf u text = Some i ->
         text = JS.take i text ++ u ++ JS.drop (i + String.length u) text
         /\ modifiedText x
            = JS.take i text ++ "<" ++ u ++ ">" ++ JS.drop (i + String.length u) text).
Proof.
  intros Hrun.
  destruct (extract_wrappedOnce text ee x Hrun) as ((Hnd & Htext) & Hurls).
  split; [exact Hnd|]. split; [exact Hurls|]. split; [exact Htext|].
  intros u i Hplain (m0 & Hm0 & Hvisited0) Hsame Hindex.
  split; [now apply indexOf_split|].
  assert (Hone : escapedUrls x = [u]).
  { apply only_one_url; [exact Hnd|]. intros v. rewrite Hurls. split.
    - intros (m & Hm & Hvisited & <-). now apply Hsame.
    - intros ->. exists m0. repeat split; try assumption. now apply Hsame. }
  rewrite Htext, Hone. simpl. now apply wrapFirst_found.
Qed.

Lemma media_url_is_wrapped_once_witness :
  modifiedText
    (match TweetHandler.extract (Some Sample.gallery) Sample.galleryText with
     | Normal x => x
     | _ => mkExtraction [] [] ""
     end)
  = "look <https://t.co/abc> and https://t.co/abc".
Proof.
  destruct (media_url_is_wrapped_once Sample.gallery Sample.galleryText
              (mkExtraction
                 [mkMediaEntry None "https://pbs.twimg.com/media/a.jpg";
                  mkMediaEntry None "https://pbs.twimg.com/media/a.jpg"]
                 ["https://t.co/abc"]
                 "look <https://t.co/abc> and https://t.co/abc") eq_refl)
    as (_ & _ & _ & Hfirst).
  destruct (Hfirst "https://t.co/abc" 5) as (_ & Hwrapped).
  - reflexivity.
  - exists (Sample.photoOf "https://t.co/abc"). split; [now left | reflexivity].
  - intros m [<- | [<- | []]] _; reflexivity.
  - reflexivity.
  - exact Hwrapped.
Defined.

End MediaUrls.

(** * Further properties of the two files *)

(** ** How the handlers complete *)

Section Completions.

Lemma neverExits_ret {A : Type} (a : A) : neverExits (ret a).
Proof. intros w code. discriminate. Qed.

Lemma neverExits_throw {A : Type} (e : JsError) : neverExits (@throw A e).
Proof. intros w code. discriminate. Qed.

Lemma neverExits_call (c : Call) : neverExits (call c).
Proof. intros w code. discriminate. Qed.

Lemma neverExits_get : neverExits get.
Proof. intros w code. discriminate. Qed.

Lemma neverExits_set_ids (ids : list string) : neverExits (set_ids ids).
Proof. intros w code. discriminate. Qed.

Lemma neverExits_set_reload (b : bool) : neverExits (set_reload b).
Proof. intros w code. discriminate. Qed.

Lemma neverExits_set_recentTweets (r : list string) :
  neverExits (set_recentTweets r).
Proof. intros w code. discriminate. Qed.

Lemma neverExits_set_connection (c : option Connection) :
  neverExits (set_connection c).
Proof. intros w code. discriminate. Qed.

Lemma neverExits_liftC {A : Type} (c : Completion A) :
  (forall code, c <> Exit code) -> neverExits (liftC c).
Proof. intros H w code. apply H. Qed.

Lemma neverExits_bind {A B : Type} (m : Js A) (k : A -> Js B) :
  neverExits m -> (forall a, neverExits (k a)) -> neverExits (bind m k).
Proof.
  intros Hm Hk w code. unfold bind. specialize (Hm w).
  destruct (m w) as [[a | e | c] w']; simpl in *.
  - apply Hk.
  - discriminate.
  - exfalso. now apply (Hm c).
Qed.

Lemma neverExits_forEach {A : Type} (f : A -> Js unit) (xs : list A) :
  (forall x, neverExits (f x)) -> neverExits (forEach f xs).
Proof.
  intros Hf. induction xs as [|x xs IH]; simpl.
  - apply neverExits_ret.
  - apply neverExits_bind; [apply Hf | intros _; exact IH].
Qed.

(** Behind [.catch] nothing is thrown any more. *)
Lemma unhandled_returns (m : Js unit) : neverExits m -> returns (unhandled m).
Proof.
  intros Hm w. unfold unhandled. specialize (Hm w).
  destruct (m w) as [[[] | e | c] w']; simpl in *.
  - reflexivity.
  - reflexivity.
  - exfalso. now apply (Hm c).
Qed.

Lemma then_catch_returns {A : Type} (p : Settled A)
      (f : A -> Js unit) (g : JsError -> Js unit) :
  (forall a, neverExits (f a)) -> (forall e, neverExits (g e)) ->
  returns (then_catch p f g).
Proof.
  intros Hf Hg w. destruct p as [a | e]; simpl.
  - specialize (Hf a w). destruct (f a w) as [[[] | e | c] w']; simpl in *.
    + reflexivity.
    + apply unhandled_returns, Hg.
    + exfalso. now apply (Hf c).
  - apply unhandled_returns, Hg.
Qed.

Lemma returns_neverExits (m : Js unit) : returns m -> neverExits m.
Proof. intros H w code. rewrite H. discriminate. Qed.

Lemma returns_ret : returns (ret tt).
Proof. intros w. reflexivity. Qed.

Lemma returns_call (c : Call) : returns (call c).
Proof. intros w. reflexivity. Qed.

Lemma returns_bind {A : Type} (m : Js A) (k : A -> Js unit) :
  (forall w, exists a, fst (m w) = Normal a) -> (forall a, returns (k a)) ->
  returns (bind m k).
Proof.
  intros Hm Hk w. unfold bind. destruct (Hm w) as (a & Ha).
  destruct (m w) as [c w']. simpl in Ha. subst c. apply Hk.
Qed.

Lemma returns_seq (m k : Js unit) :
  returns m -> returns k -> returns (bind m (fun _ => k)).
Proof.
  intros Hm Hk. apply returns_bind; [|intros _; exact Hk].
  intros w. exists tt. apply Hm.
Qed.

Lemma returns_forEach {A : Type} (f : A -> Js unit) (xs : list A) :
  (forall x, returns (f x)) -> returns (forEach f xs).
Proof.
  intros Hf. induction xs as [|x xs IH]; simpl.
  - apply returns_ret.
  - apply returns_seq; [apply Hf | exact IH].
Qed.

End Completions.

#[export] Hint Resolve neverExits_ret neverExits_throw neverExits_call
  neverExits_get neverExits_set_ids neverExits_set_reload
  neverExits_set_recentTweets neverExits_set_connection neverExits_bind
  neverExits_forEach returns_neverExits unhandled_returns then_catch_returns
  returns_ret returns_call returns_seq returns_forEach : js.

(** Splits a goal [neverExits m] along the shape of [m]. *)
Ltac neverExits_step :=
  match goal with
  | |- forall _, _ => intro
  | |- neverExits (bind _ _) => apply neverExits_bind
  | |- neverExits (then_catch _ _ _) => apply returns_neverExits, then_catch_returns
  | |- neverExits (forEach _ _) => apply neverExits_forEach
  | |- neverExits (match ?x with _ => _ end) => destruct x
  | |- neverExits (if ?x then _ else _) => destruct x
  | |- neverExits _ => solve [auto with js]
  end.

Section HandlerCompletions.

Import TweetHandler TwitterClient.

Variable env : Env.

Lemma selectText_neverExit (t : Tweet) (code : Z) : selectText t <> Exit code.
Proof.
  unfold selectText. destruct (truncated t); [|discriminate].
  destruct (extended_tweet (context t)); discriminate.
Qed.

Lemma gifs_neverExit (ms : list Media) (x : Extraction) (code : Z) :
  gifs x ms <> Exit code.
Proof.
  revert x. induction ms as [|m ms IH]; intros x; simpl; [discriminate|].
  unfold animated_gif. destruct (video_info m) as [vi|]; [|discriminate].
  destruct (variants vi); [discriminate | apply IH].
Qed.

Lemma normalize_neverExit (t : Tweet) (code : Z) : normalize env t <> Exit code.
Proof.
  unfold normalize. pose proof (selectText_neverExit t) as Hsel.
  destruct (selectText t) as [[txt ee] | e | c]; [|discriminate | now destruct (Hsel c)].
  unfold extract. destruct ee as [ee|]; [|discriminate].
  match goal with
  | |- context [gifs ?x ?ms] =>
      pose proof (gifs_neverExit ms x) as Hgifs; destruct (gifs x ms) as [y | e | c]
  end; [discriminate | discriminate | now destruct (Hgifs c)].
Qed.

Lemma discordClient_send_neverExits (t : Tweet) (str : string) :
  neverExits (discordClient_send env t str).
Proof. unfold discordClient_send. repeat neverExits_step. Qed.

(** Whatever the batch and the delivery call do, the dispatch returns. *)
Lemma dispatch_returns (t : Tweet) (ms : list MediaEntry) (str : string) :
  returns (dispatch env t ms str).
Proof.
  unfold dispatch. apply returns_seq; [apply returns_call|].
  apply then_catch_returns.
  - intros _. apply discordClient_send_neverExits.
  - intros e. apply neverExits_bind; [auto with js | intros _].
    apply discordClient_send_neverExits.
Qed.

Lemma deleteTweet_returns (p : option Payload) : returns (deleteTweet env p).
Proof.
  unfold deleteTweet. destruct p as [[d | t |] |]; try apply returns_ret.
  destruct (status d) as [st|]; [|apply returns_ret].
  apply returns_seq; [apply returns_call|].
  apply then_catch_returns; repeat neverExits_step.
Qed.

Lemma deliver_neverExits (t : Tweet) (manual : bool) :
  neverExits (deliver env t manual).
Proof.
  unfold deliver. repeat neverExits_step.
  - apply neverExits_liftC, normalize_neverExit.
  - apply returns_neverExits, dispatch_returns.
Qed.

Lemma tweetHandler_neverExits (p : Payload) (manual : bool) :
  neverExits (tweetHandler env p manual).
Proof.
  unfold tweetHandler. destruct p as [d | t |]; [| |auto with js].
  - destruct (status d); [|auto with js].
    apply returns_neverExits, deleteTweet_returns.
  - apply neverExits_bind; [auto with js | intros w].
    destruct (negb (JS.includes (user_id_str (user t)) (utils_ids w)));
      [auto with js|].
    destruct (negb manual); [|apply deliver_neverExits].
    destruct (dedup (recentTweets w) (id_str t)); [|auto with js].
    apply neverExits_bind; [auto with js | intros _; apply deliver_neverExits].
Qed.

Lemma close_returns : returns (close env).
Proof.
  intros w. unfold close, bind, get. simpl.
  destruct (twitter_connection w) as [[[|]]|]; reflexivity.
Qed.

(** Neither the database nor [twitter.stream] can make [connect] throw. *)
Lemma connect_returns : returns (connect env).
Proof.
  unfold connect. apply returns_seq; [intros w; reflexivity|].
  apply returns_seq; [apply close_returns|].
  apply returns_seq; [apply returns_call|].
  apply then_catch_returns; repeat neverExits_step.
Qed.

Lemma reloadCheck_returns : returns (reloadCheck env).
Proof.
  intros w. unfold reloadCheck, bind, get. simpl.
  destruct (negb (utils_reload w)); [reflexivity|].
  apply (returns_seq _ _ (returns_call _) connect_returns).
Qed.

Lemma removeOldFiles_returns : returns (removeOldFiles env).
Proof.
  unfold removeOldFiles. apply returns_seq; [apply returns_call|].
  destruct (readdir env "./tweets") as [e | files]; [apply returns_call|].
  apply returns_seq.
  - apply returns_forEach. intros file. apply returns_call.
  - apply returns_bind.
    + intros w. destruct (statCallbacks_calls env files) as (u & cs & Hrun & _).
      exists u. now rewrite Hrun.
    + intros unlinked. apply returns_forEach. intros file.
      unfold unlinkCallback. destruct (unlink env (joinFolder file));
        apply returns_call.
Qed.

End HandlerCompletions.

(** ** Failures of the collaborators *)


(** ** The process and the window over a run of events *)

Section Runs.

Import TweetHandler TwitterClient.

Variable env : Env.

Lemma listener_exit (ev : Event) (w : World) (code : Z) :
  fst (listener env ev w) = Exit code ->
  ev = ConnectionErrorHttp 401%Z /\ code = 1%Z.
Proof.
  destruct ev; simpl; intros H;
    try discriminate H;
    try (exfalso; revert H;
         first [ apply tweetHandler_neverExits
               | apply returns_neverExits, reloadCheck_returns
               | apply returns_neverExits, removeOldFiles_returns ]).
  - unfold on_connection_error_http in H.
    destruct (Z.eqb_spec httpStatusCode 401) as [-> | Hneq].
    + injection H as <-. now split.
    + discriminate H.
  - exfalso. revert H. apply returns_neverExits.
    unfold on_connection_error_unknown.
    apply (returns_seq _ _ (returns_call _) (connect_returns env)).
Qed.

End Runs.

(** Over any run of events the process is ended by [process.exit] only
    through the listener of ['connection error http'] with status 401,
    and then with code 1. *)
Theorem process_exits_only_on_401
        (env : Env) (events : list TwitterClient.Event) (w : World) (code : Z) :
  fst (TwitterClient.run env events w) = Some code ->
  code = 1%Z /\ In (TwitterClient.ConnectionErrorHttp 401%Z) events.
Proof.
  revert w. induction events as [|ev events IH]; intros w H; simpl in H.
  - discriminate H.
  - destruct (TwitterClient.listener env ev w) as [c w'] eqn:Hev.
    destruct c as [u | e | c].
    + destruct (IH w' H) as (Hcode & Hin). split; [assumption | now right].
    + destruct (IH w' H) as (Hcode & Hin). split; [assumption | now right].
    + simpl in H. injection H as <-.
      destruct (listener_exit env ev w c) as (-> & ->); [now rewrite Hev|].
      split; [reflexivity | now left].
Qed.

Lemma process_exits_only_on_401_witness :
  1%Z = 1%Z
  /\ In (TwitterClient.ConnectionErrorHttp 401%Z)
        [TwitterClient.Data (Post Sample.retweet);
         TwitterClient.ConnectionErrorHttp 401%Z;
         TwitterClient.DataKeepAlive].
Proof.
  apply (process_exits_only_on_401 Sample.env
           [TwitterClient.Data (Post Sample.retweet);
            TwitterClient.ConnectionErrorHttp 401%Z;
            TwitterClient.DataKeepAlive]
           Sample.world 1%Z).
  vm_compute. reflexivity.
Defined.

Section WindowInvariant.

Import TweetHandler TwitterClient.

Variable env : Env.

Lemma NoDup_tl {A : Type} (xs : list A) : NoDup xs -> NoDup (tl xs).
Proof. intros H. destruct xs; [assumption | now inversion H]. Qed.

Lemma dedup_keeps_window (recent recent' : list string) (id : string) :
  List.length recent <= 20 -> NoDup recent ->
  dedup recent id = Some recent' ->
  List.length recent' <= 20 /\ NoDup recent'.
Proof.
  intros Hlen Hnd. unfold dedup.
  destruct (JS.includes id recent) eqn:Hin; [discriminate|].
  intros H. injection H as <-. split; [now apply remember_length|].
  assert (Hpush : NoDup (JS.push recent id)).
  { unfold JS.push. apply NoDup_app; [assumption | repeat constructor; intros [] |].
    intros v Hv [<- | []]. apply includes_false_iff in Hin. contradiction. }
  unfold remember.
  destruct (Nat.ltb 20 (List.length (JS.push recent id))); [|assumption].
  now apply NoDup_tl.
Qed.

(** What the exported handler does to the window. *)
Lemma tweetHandler_window (p : Payload) (manual : bool) (w : World) :
  recentTweets (snd (tweetHandler env p manual w)) = recentTweets w
  \/ exists t, p = Post t
               /\ dedup (recentTweets w) (id_str t)
                  = Some (recentTweets (snd (tweetHandler env p manual w))).
Proof.
  destruct p as [d | t |]; [| |now left].
  - left. unfold tweetHandler. destruct (status d); [|reflexivity].
    apply tracer_frame, deleteTweet_tracer.
  - destruct (JS.includes (user_id_str (user t)) (utils_ids w)) eqn:Hauthor.
    + destruct manual.
      * left. rewrite tweetHandler_manual by assumption.
        apply tracer_frame, deliver_tracer.
      * rewrite tweetHandler_streamed by assumption.
        destruct (dedup (recentTweets w) (id_str t)) as [recent'|] eqn:Hdedup;
          [|now left].
        right. exists t. split; [reflexivity|]. rewrite Hdedup. f_equal. symmetry.
        match goal with
        | |- context [deliver env t false ?w0] =>
            destruct (tracer_frame (deliver env t false) w0 (deliver_tracer env t false))
              as (_ & _ & Hrecent & _)
        end.
        exact Hrecent.
    + left. now rewrite tweetHandler_unregistered.
Qed.

Lemma connect_window (w : World) :
  recentTweets (snd (connect env w)) = recentTweets w.
Proof.
  unfold connect, close.
  unfold on_connection_aborted.
  unfold bind, get, set_reload, set_ids, set_connection, call, then_catch,
    unhandled, ret, throw, emit.
  destruct w as [ids0 reload0 recent0 conn0 trace0]. simpl.
  destruct conn0 as [[[|]]|]; simpl;
    (destruct (feedsFind env) as [results | err]; simpl;
     [ destruct (map twitter_id results) as [|id ids] eqn:Hids; simpl;
       [ | destruct (streamThrows env (id :: ids)); simpl ]
     | ]);
    reflexivity.
Qed.

Lemma listener_window (ev : Event) (w : World) :
  windowOk w -> windowOk (snd (listener env ev w)).
Proof.
  intros (Hlen & Hnd). unfold windowOk.
  assert (Hsame : forall w', recentTweets w' = recentTweets w ->
                    List.length (recentTweets w') <= 20 /\ NoDup (recentTweets w')).
  { intros w' ->. now split. }
  assert (Hhandler : forall p manual,
            List.length (recentTweets (snd (tweetHandler env p manual w))) <= 20
            /\ NoDup (recentTweets (snd (tweetHandler env p manual w)))).
  { intros p manual.
    destruct (tweetHandler_window p manual w) as [H | (t & _ & H)].
    - now apply Hsame.
    - now apply (dedup_keeps_window _ _ _ Hlen Hnd H). }
  destruct ev; simpl; try (apply Hsame; reflexivity).
  - apply Hsame. unfold on_connection_error_http.
    destruct (Z.eqb httpStatusCode 401); reflexivity.
  - apply Hsame. unfold on_connection_error_unknown, bind, call.
    now rewrite connect_window.
  - apply Hhandler.
  - apply Hhandler.
  - apply Hsame. unfold reloadCheck, bind, get, call. simpl.
    destruct (negb (utils_reload w)); [reflexivity|]. now rewrite connect_window.
  - apply Hsame. apply tracer_frame, removeOldFiles_tracer.
Qed.

End WindowInvariant.

(** Over any run of events (streamed and manual posts, deletion
    notices, transport events, timers) that starts with a window of at
    most 20 distinct ids, [recentTweets] holds at most 20 ids and no id
    twice. The empty window the module starts with is such a window. *)
Theorem window_stays_bounded_and_distinct
        (env : Env) (events : list TwitterClient.Event) (w : World) :
  windowOk w -> windowOk (snd (TwitterClient.run env events w)).
Proof.
  revert w. induction events as [|ev events IH]; intros w Hw; [exact Hw|].
  simpl. pose proof (listener_window env ev w Hw) as Hstep.
  destruct (TwitterClient.listener env ev w) as [[u | e | c] w'];
    simpl in *; solve [apply IH; exact Hstep | exact Hstep].
Qed.

Lemma window_stays_bounded_and_distinct_witness :
  windowOk
    (snd (TwitterClient.run Sample.env
            (TwitterClient.ConnectionAborted
               :: map (fun t => TwitterClient.Data (Post t)) (Sample.tweetsUpTo 23))
            Sample.world)).
Proof.
  apply (window_stays_bounded_and_distinct Sample.env
           (TwitterClient.ConnectionAborted
              :: map (fun t => TwitterClient.Data (Post t)) (Sample.tweetsUpTo 23))
           Sample.world).
  split.
  - vm_compute. lia.
  - apply distinct_NoDup. vm_compute. reflexivity.
Defined.

(** ** What is delivered, and what is not *)

Section Silence.

Lemma silent_ret {A : Type} (a : A) : silent (ret a).
Proof.
  exists (Normal a), []. split; [|reflexivity].
  intros w. unfold ret. now rewrite emit_nil.
Qed.

Lemma silent_throw {A : Type} (e : JsError) : silent (@throw A e).
Proof.
  exists (Throw e), []. split; [|reflexivity].
  intros w. unfold throw. now rewrite emit_nil.
Qed.

Lemma silent_call (c : Call) : sends [c] = [] -> silent (call c).
Proof. intros H. exists (Normal tt), [c]. split; [reflexivity | exact H]. Qed.

Lemma silent_bind {A B : Type} (m : Js A) (k : A -> Js B) :
  silent m -> (forall a, silent (k a)) -> silent (bind m k).
Proof.
  intros (c & cs & Hm & Hcs) Hk. destruct c as [a | e | code].
  - destruct (Hk a) as (c' & cs' & Hk' & Hcs').
    exists c', (cs ++ cs')%list. split.
    + intros w. unfold bind. now rewrite Hm, Hk', emit_emit.
    + now rewrite sends_app, Hcs, Hcs'.
  - exists (Throw e), cs. split; [|exact Hcs].
    intros w. unfold bind. now rewrite Hm.
  - exists (Exit code), cs. split; [|exact Hcs].
    intros w. unfold bind. now rewrite Hm.
Qed.

Lemma silent_forEach {A : Type} (f : A -> Js unit) (xs : list A) :
  (forall x, silent (f x)) -> silent (forEach f xs).
Proof.
  intros Hf. induction xs as [|x xs IH]; simpl.
  - apply silent_ret.
  - apply silent_bind; [apply Hf | intros _; exact IH].
Qed.

Lemma silent_unhandled (m : Js unit) : silent m -> silent (unhandled m).
Proof.
  intros (c & cs & Hm & Hcs). destruct c as [a | e | code].
  - exists (Normal a), cs. split; [|exact Hcs].
    intros w. unfold unhandled. now rewrite Hm.
  - exists (Normal tt), (cs ++ [UnhandledRejection e])%list. split.
    + intros w. unfold unhandled, call. now rewrite Hm, emit_emit.
    + now rewrite sends_app, Hcs.
  - exists (Exit code), cs. split; [|exact Hcs].
    intros w. unfold unhandled. now rewrite Hm.
Qed.

Lemma silent_then_catch {A : Type} (p : Settled A)
      (f : A -> Js unit) (g : JsError -> Js unit) :
  (forall a, silent (f a)) -> (forall e, silent (g e)) ->
  silent (then_catch p f g).
Proof.
  intros Hf Hg. destruct p as [a | e]; simpl.
  - destruct (Hf a) as (c & cs & Hfa & Hcs). destruct c as [u | e | code].
    + exists (Normal u), cs. split; [|exact Hcs]. intros w. now rewrite Hfa.
    + destruct (silent_unhandled (g e) (Hg e)) as (c' & cs' & Hge & Hcs').
      exists c', (cs ++ cs')%list. split.
      * intros w. now rewrite Hfa, Hge, emit_emit.
      * now rewrite sends_app, Hcs, Hcs'.
    + exists (Exit code), cs. split; [|exact Hcs]. intros w. now rewrite Hfa.
  - apply silent_unhandled, Hg.
Qed.

Lemma silent_newCalls {A : Type} (m : Js A) (w : World) :
  silent m -> sends (newCalls m w) = [].
Proof.
  intros (c & cs & Hm & Hcs). now rewrite (newCalls_emit m w c cs (Hm w)).
Qed.

End Silence.

(** Splits a goal [silent m] along the shape of [m]. *)
Ltac silent_step :=
  match goal with
  | |- forall _, _ => intro
  | |- silent (bind _ _) => apply silent_bind
  | |- silent (then_catch _ _ _) => apply silent_then_catch
  | |- silent (forEach _ _) => apply silent_forEach
  | |- silent (call _) => apply silent_call; reflexivity
  | |- silent (ret _) => apply silent_ret
  | |- silent (throw _) => apply silent_throw
  | |- silent (match ?x with _ => _ end) => destruct x
  | |- silent (if ?x then _ else _) => destruct x
  end.

Section Filters.

Import TweetHandler TwitterClient.

Variable env : Env.

Lemma deleteTweet_silent (p : option Payload) : silent (deleteTweet env p).
Proof. unfold deleteTweet. repeat silent_step. Qed.

(** A reply to somebody else stops after the archive. *)
Lemma deliver_reply (t : Tweet) (manual : bool) (w : World) :
  nonSelfReply t = true ->
  deliver env t manual w =
  (match writeFileSync env (archivePath t manual) with
   | Some e => Throw e
   | None => Normal tt
   end,
   emit [WriteFileSync (archivePath t manual) t] w).
Proof.
  intros Hreply. unfold deliver, bind, call.
  destruct (writeFileSync env (archivePath t manual)); [reflexivity|].
  now rewrite Hreply.
Qed.

(** A post that passes both gates does what lines 50-144 do. *)
Lemma tweetHandler_passed (t : Tweet) (manual : bool) (w : World) :
  JS.includes (user_id_str (user t)) (utils_ids w) = true ->
  (manual = true \/ JS.includes (id_str t) (recentTweets w) = false) ->
  fst (tweetHandler env (Post t) manual w) = fst (deliver env t manual w)
  /\ newCalls (tweetHandler env (Post t) manual) w = newCalls (deliver env t manual) w.
Proof.
  intros Hauthor Hgate.
  destruct (deliver_tracer env t manual) as (c & cs & Hdeliver).
  rewrite (newCalls_emit _ w c cs (Hdeliver w)), (Hdeliver w).
  destruct manual.
  - rewrite tweetHandler_manual by assumption.
    rewrite (newCalls_emit _ w c cs); [|rewrite tweetHandler_manual by assumption];
      rewrite ?Hdeliver; split; reflexivity.
  - destruct Hgate as [Hmanual | Hnew]; [discriminate|].
    unfold newCalls. rewrite tweetHandler_streamed by assumption.
    unfold dedup. rewrite Hnew, Hdeliver. simpl.
    split; [reflexivity | apply skipn_own_length].
Qed.

(** A post that one of the gates stops makes no call. *)
Lemma tweetHandler_stopped (t : Tweet) (manual : bool) (w : World) :
  JS.includes (user_id_str (user t)) (utils_ids w) = false
  \/ (manual = false /\ JS.includes (id_str t) (recentTweets w) = true) ->
  tweetHandler env (Post t) manual w = (Normal tt, w).
Proof.
  intros [Hauthor | (-> & Hseen)].
  - now apply tweetHandler_unregistered.
  - destruct (JS.includes (user_id_str (user t)) (utils_ids w)) eqn:Hauthor.
    + rewrite tweetHandler_streamed by assumption. unfold dedup. now rewrite Hseen.
    + now apply tweetHandler_unregistered.
Qed.

Lemma newCalls_unchanged {A : Type} (m : Js A) (w : World) (c : Completion A) :
  m w = (c, w) -> newCalls m w = [].
Proof.
  intros H. apply newCalls_emit with (c := c). now rewrite emit_nil.
Qed.

End Filters.

(** Whenever the exported handler calls [discordClient.send], the
    payload is a post (no deletion notice), its author is in
    [utils.ids], it is no reply to another user, and it came through
    the manual path or its id was not in the window. *)
Theorem delivery_requires_passing_filters
        (env : Env) (p : Payload) (manual : bool) (w : World) :
  sends (newCalls (TweetHandler.tweetHandler env p manual) w) <> [] ->
  exists t,
    p = Post t
    /\ JS.includes (user_id_str (user t)) (utils_ids w) = true
    /\ TweetHandler.nonSelfReply t = false
    /\ (manual = true \/ JS.includes (id_str t) (recentTweets w) = false).
Proof.
  intros Hsent. destruct p as [d | t |];
    [| |exfalso; apply Hsent;
        now rewrite (newCalls_unchanged _ w (Throw (TypeError "tweet.user is undefined")))].
  - exfalso. apply Hsent. unfold TweetHandler.tweetHandler.
    destruct (status d).
    + apply silent_newCalls, deleteTweet_silent.
    + now rewrite (newCalls_unchanged _ w (Throw (TypeError "tweet.delete.status is undefined"))).
  - exists t. split; [reflexivity|].
    destruct (JS.includes (user_id_str (user t)) (utils_ids w)) eqn:Hauthor.
    2:{ exfalso. apply Hsent.
        rewrite (newCalls_unchanged _ w (Normal tt)); [reflexivity|].
        apply tweetHandler_stopped. now left. }
    assert (Hgate : manual = true \/ JS.includes (id_str t) (recentTweets w) = false).
    { destruct manual; [now left|].
      destruct (JS.includes (id_str t) (recentTweets w)) eqn:Hseen; [|now right].
      exfalso. apply Hsent.
      rewrite (newCalls_unchanged _ w (Normal tt)); [reflexivity|].
      apply tweetHandler_stopped. now right. }
    split; [reflexivity|]. split; [|exact Hgate].
    destruct (TweetHandler.nonSelfReply t) eqn:Hreply; [|reflexivity].
    exfalso. apply Hsent.
    destruct (tweetHandler_passed env t manual w Hauthor Hgate) as (_ & ->).
    erewrite newCalls_emit by (apply deliver_reply; exact Hreply). reflexivity.
Qed.

Lemma delivery_requires_passing_filters_witness :
  exists t,
    Post Sample.retweet = Post t
    /\ JS.includes (user_id_str (user t)) (utils_ids Sample.world) = true
    /\ TweetHandler.nonSelfReply t = false
    /\ (false = true \/ JS.includes (id_str t) (recentTweets Sample.world) = false).
Proof.
  apply (delivery_requires_passing_filters Sample.env (Post Sample.retweet) false
           Sample.world).
  vm_compute. discriminate.
Defined.

(** A reply to another user is archived and then dropped: of a post
    that passes the author filter and the window, whose
    [in_reply_to_user_id_str] is a non-empty id other than the author's,
    the only call is the archive write. *)
Theorem reply_to_another_user_is_archived_not_sent
        (env : Env) (t : Tweet) (manual : bool) (w : World) (r : string) :
  JS.includes (user_id_str (user t)) (utils_ids w) = true ->
  (manual = true \/ JS.includes (id_str t) (recentTweets w) = false) ->
  in_reply_to_user_id_str t = Some r ->
  r <> "" ->
  r <> user_id_str (user t) ->
  newCalls (TweetHandler.tweetHandler env (Post t) manual) w
  = [WriteFileSync (TweetHandler.archivePath t manual) t].
Proof.
  intros Hauthor Hgate Hreply Hnonempty Hother.
  destruct (tweetHandler_passed env t manual w Hauthor Hgate) as (_ & ->).
  eapply newCalls_emit. apply deliver_reply.
  unfold TweetHandler.nonSelfReply. rewrite Hreply.
  apply String.eqb_neq in Hother. rewrite Hother.
  destruct r as [|c r]; [congruence | reflexivity].
Qed.

Lemma reply_to_another_user_is_archived_not_sent_witness :
  newCalls (TweetHandler.tweetHandler Sample.env (Post Sample.reply) false) Sample.world
  = [WriteFileSync "./tweets/alice-600.json" Sample.reply].
Proof.
  apply (reply_to_another_user_is_archived_not_sent
           Sample.env Sample.reply false Sample.world "8");
    try reflexivity; try discriminate.
  right. reflexivity.
Defined.

Section Resent.

Import TweetHandler TwitterClient.

Variable env : Env.

Lemma remember_In (recent : list string) (id : string) :
  In id (remember recent id).
Proof.
  unfold remember, JS.push, JS.shift.
  destruct (Nat.ltb_spec 20 (List.length (recent ++ [id])%list)) as [Hlt | Hge].
  - destruct recent as [|x recent].
    + simpl in Hlt. lia.
    + simpl. apply in_or_app. right. now left.
  - apply in_or_app. right. now left.
Qed.

Lemma lastn_keeps_suffix {A : Type} (n : nat) (xs ys : list A) :
  List.length ys <= n -> exists pre, lastn n (xs ++ ys)%list = (pre ++ ys)%list.
Proof.
  intros H. unfold lastn. rewrite skipn_app, length_app.
  replace (List.length xs + List.length ys - n - List.length xs) with 0 by lia.
  eexists. reflexivity.
Qed.

End Resent.

(** An archive write that throws loses a streamed post: the handler
    throws after the write was tried, nothing is sent, and since the id
    went into the window before the write, the same post streamed again
    is ignored. *)
Theorem failed_archive_loses_streamed_post
        (env : Env) (t : Tweet) (w : World) (e : JsError) :
  JS.includes (user_id_str (user t)) (utils_ids w) = true ->
  JS.includes (id_str t) (recentTweets w) = false ->
  writeFileSync env (TweetHandler.archivePath t false) = Some e ->
  fst (TwitterClient.on_data env (Post t) w) = Throw e
  /\ newCalls (TwitterClient.on_data env (Post t)) w
     = [WriteFileSync (TweetHandler.archivePath t false) t]
  /\ TwitterClient.on_data env (Post t) (snd (TwitterClient.on_data env (Post t) w))
     = (Normal tt, snd (TwitterClient.on_data env (Post t) w)).
Proof.
  intros Hauthor Hnew Hwrite.
  assert (Hdeliver : forall w', TweetHandler.deliver env t false w'
                     = (Throw e, emit [WriteFileSync (TweetHandler.archivePath t false) t] w')).
  { intros w'. unfold TweetHandler.deliver, bind, call. now rewrite Hwrite. }
  unfold TwitterClient.on_data.
  destruct (tweetHandler_passed env t false w Hauthor (or_intror Hnew)) as (-> & ->).
  rewrite (newCalls_emit _ w _ _ (Hdeliver w)), Hdeliver.
  split; [reflexivity|]. split; [reflexivity|].
  apply tweetHandler_stopped. right. split; [reflexivity|].
  destruct (on_data_window env t w Hauthor) as (_ & Hwindow).
  unfold TwitterClient.on_data in Hwindow. rewrite Hwindow.
  unfold TweetHandler.dedup. rewrite Hnew.
  apply includes_true_iff, remember_In.
Qed.

Lemma failed_archive_loses_streamed_post_witness :
  fst (TwitterClient.on_data Sample.envReadOnly (Post Sample.retweet) Sample.world)
  = Throw (ExternalError "EROFS").
Proof.
  apply (failed_archive_loses_streamed_post Sample.envReadOnly Sample.retweet
           Sample.world (ExternalError "EROFS"));
    reflexivity.
Defined.

(** Duplicate suppression reaches exactly 20 posts back. After a
    streamed post [t] and a run of further streamed posts, all by
    streamed authors and with ids that are distinct and new to the
    window: [t] streamed again is ignored when fewer than 20 posts
    followed it, and is processed again (archived first) when 20 or
    more did. *)
Theorem resent_post_is_ignored_within_20
        (env : Env) (t : Tweet) (tweets : list Tweet) (w : World) :
  List.length (recentTweets w) <= 20 ->
  Forall (fun t' => JS.includes (user_id_str (user t')) (utils_ids w) = true)
         (t :: tweets) ->
  NoDup (recentTweets w ++ map id_str (t :: tweets))%list ->
  (List.length tweets < 20 ->
   TwitterClient.on_data env (Post t) (streamAll env (t :: tweets) w)
   = (Normal tt, streamAll env (t :: tweets) w))
  /\ (20 <= List.length tweets ->
      exists rest,
        newCalls (TwitterClient.on_data env (Post t)) (streamAll env (t :: tweets) w)
        = WriteFileSync (TweetHandler.archivePath t false) t :: rest).
Proof.
  intros Hlen Hall Hnd.
  destruct (streamAll_window env (t :: tweets) w Hall) as (Hids & Hwindow).
  rewrite (dedupAll_distinct _ _ Hlen Hnd) in Hwindow.
  assert (Hauthor : JS.includes (user_id_str (user t))
                                (utils_ids (streamAll env (t :: tweets) w)) = true).
  { rewrite Hids. now inversion Hall. }
  unfold TwitterClient.on_data. split; intros Hcount.
  - apply tweetHandler_stopped. right. split; [reflexivity|].
    rewrite Hwindow. apply includes_true_iff.
    destruct (lastn_keeps_suffix 20 (recentTweets w) (map id_str (t :: tweets)))
      as (pre & ->).
    + simpl. rewrite length_map. lia.
    + apply in_or_app. right. now left.
  - assert (Hnew : JS.includes (id_str t)
                     (recentTweets (streamAll env (t :: tweets) w)) = false).
    { rewrite Hwindow. apply includes_false_iff. intros Hin.
      change (recentTweets w ++ map id_str (t :: tweets))%list
        with (recentTweets w ++ [id_str t] ++ map id_str tweets)%list in Hin, Hnd.
      rewrite app_assoc in Hin. rewrite lastn_app_long in Hin
        by (rewrite length_map; exact Hcount).
      apply lastn_incl in Hin.
      apply NoDup_remove_2 in Hnd. apply Hnd.
      apply in_or_app. now right. }
    destruct (tweetHandler_passed env t false _ Hauthor (or_intror Hnew)) as (_ & ->).
    destruct (deliver_archives env t false) as (c & rest & Hdeliver).
    exists rest. eapply newCalls_emit, Hdeliver.
Qed.

Lemma resent_post_is_ignored_within_20_witness :
  exists rest,
    newCalls (TwitterClient.on_data Sample.env (Post (Sample.plain "0" Sample.alice "hi")))
             (streamAll Sample.env
                        (Sample.plain "0" Sample.alice "hi" :: Sample.tweetsUpTo 23)
                        Sample.world)
    = WriteFileSync "./tweets/alice-0.json" (Sample.plain "0" Sample.alice "hi") :: rest.
Proof.
  apply (resent_post_is_ignored_within_20 Sample.env
           (Sample.plain "0" Sample.alice "hi") (Sample.tweetsUpTo 23) Sample.world).
  - vm_compute. lia.
  - repeat constructor.
  - apply distinct_NoDup. vm_compute. reflexivity.
  - vm_compute. lia.
Defined.

(** ** The media entries *)

Section MediaEntries.

Import TweetHandler.

Lemma escape_mediaUrls (u : string) (x : Extraction) :
  mediaUrls (escape u x) = mediaUrls x.
Proof. unfold escape. now destruct (negb (JS.includes u (escapedUrls x))). Qed.

Lemma photos_mediaUrls (ms : list Media) (x : Extraction) :
  mediaUrls (fold_left photo ms x) = (mediaUrls x ++ map photoEntry ms)%list.
Proof.
  revert x. induction ms as [|m ms IH]; intros x; simpl.
  - now rewrite app_nil_r.
  - rewrite IH. unfold photo. rewrite escape_mediaUrls. simpl.
    unfold JS.push. now rewrite <- app_assoc.
Qed.

Lemma gifs_mediaUrls (ms : list Media) (x y : Extraction) :
  gifs x ms = Normal y ->
  mediaUrls y = (mediaUrls x ++ flat_map gifEntry ms)%list.
Proof.
  revert x. induction ms as [|m ms IH]; intros x Hrun; simpl in Hrun.
  - injection Hrun as <-. simpl. now rewrite app_nil_r.
  - unfold animated_gif in Hrun. simpl. unfold gifEntry at 1.
    destruct (video_info m) as [vi|]; [|discriminate Hrun].
    destruct (variants vi) as [|v vs]; [discriminate Hrun|].
    rewrite (IH _ Hrun), escape_mediaUrls. simpl.
    unfold JS.push. now rewrite <- app_assoc.
Qed.

Lemma gifs_throws_iff (ms : list Media) (x : Extraction) :
  (exists e, gifs x ms = Throw e) <-> exists m, In m ms /\ hasVariant m = false.
Proof.
  revert x. induction ms as [|m ms IH]; intros x; simpl.
  - split; [intros (e & H); discriminate H | intros (m & [] & _)].
  - assert (Hhead : hasVariant m = false ->
              exists m', (m = m' \/ In m' ms) /\ hasVariant m' = false).
    { intros H. exists m. split; [now left | exact H]. }
    unfold animated_gif.
    destruct (video_info m) as [vi|] eqn:Hvi.
    + destruct (variants vi) as [|v vs] eqn:Hvs.
      * split; [|intros _; eexists; reflexivity].
        intros _. apply Hhead. unfold hasVariant. now rewrite Hvi, Hvs.
      * rewrite IH. split.
        -- intros (m' & Hm' & Hv). exists m'. split; [now right | exact Hv].
        -- intros (m' & [<- | Hm'] & Hv); [|now exists m'].
           unfold hasVariant in Hv. rewrite Hvi, Hvs in Hv. discriminate Hv.
    + split; [|intros _; eexists; reflexivity].
      intros _. apply Hhead. unfold hasVariant. now rewrite Hvi.
Qed.

End MediaEntries.

(** When the media loops return, [mediaUrls] holds one [{ image }]
    entry per photo, in the order of the media list, followed by one
    [{ video, image }] entry per animated gif, in that order, the video
    being the url of the first variant; media of any other type give no
    entry. *)
Theorem mediaUrls_are_photos_then_gifs
        (ee : Entities) (text : string) (x : TweetHandler.Extraction) :
  TweetHandler.extract (Some ee) text = Normal x ->
  TweetHandler.mediaUrls x
  = (map photoEntry (filter (fun m => String.eqb (type m) "photo") (media ee))
     ++ flat_map gifEntry
          (filter (fun m => String.eqb (type m) "animated_gif") (media ee)))%list.
Proof.
  unfold TweetHandler.extract. intros Hrun.
  rewrite (gifs_mediaUrls _ _ _ Hrun), photos_mediaUrls. reflexivity.
Qed.

Lemma mediaUrls_are_photos_then_gifs_witness :
  TweetHandler.mediaUrls
    (match TweetHandler.extract (Some Sample.mixed) "text" with
     | Normal x => x
     | _ => TweetHandler.mkExtraction [] [] ""
     end)
  = [mkMediaEntry None "https://pbs.twimg.com/media/a.jpg";
     mkMediaEntry (Some "https://video.twimg.com/b.mp4")
                  "https://pbs.twimg.com/tweet_video_thumb/b.jpg"].
Proof.
  rewrite (mediaUrls_are_photos_then_gifs Sample.mixed "text"
             (match TweetHandler.extract (Some Sample.mixed) "text" with
              | Normal x => x
              | _ => TweetHandler.mkExtraction [] [] ""
              end) eq_refl).
  reflexivity.
Defined.

(** The media loops throw exactly when some animated gif has no
    [video_info] or an empty [variants] list; photos and media of other
    types never make them throw. *)
Theorem extract_throws_iff_gif_without_variant (ee : Entities) (text : string) :
  (exists e, TweetHandler.extract (Some ee) text = Throw e)
  <-> exists m, In m (media ee) /\ type m = "animated_gif" /\ hasVariant m = false.
Proof.
  unfold TweetHandler.extract. rewrite gifs_throws_iff. split.
  - intros (m & Hm & Hv). apply filter_In in Hm. destruct Hm as (Hm & Htype).
    apply String.eqb_eq in Htype. now exists m.
  - intros (m & Hm & Htype & Hv). exists m. split; [|exact Hv].
    apply filter_In. split; [exact Hm|]. now apply String.eqb_eq.
Qed.

(** ** The delete requests *)

Section DeleteRequests.

Import TweetHandler.

Variable env : Env.



End DeleteRequests.



(** Without delivered messages nothing is requested: when the lookup
    finds no record, or a record without [messages], the lookup is the
    only call; when the lookup is rejected, its error is logged and
    that is all. *)
Theorem deleteTweet_without_record_requests_nothing
        (env : Env) (st : DeleteStatus) (w : World) :
  (findOne env (status_id_str st) = Resolved None
   \/ findOne env (status_id_str st) = Resolved (Some (mkTweetRecord None)) ->
   TweetHandler.deleteTweet env (Some (Deletion (mkDelete (Some st)))) w
   = (Normal tt, emit [FindOne (status_id_str st)] w))
  /\ (forall err,
         findOne env (status_id_str st) = Rejected err ->
         TweetHandler.deleteTweet env (Some (Deletion (mkDelete (Some st)))) w
         = (Normal tt, emit [FindOne (status_id_str st); Console Err [LErr err]] w)).
Proof.
  unfold TweetHandler.deleteTweet. simpl. unfold bind at 1 3, call. split.
  - intros [Hfind | Hfind]; rewrite Hfind; reflexivity.
  - intros err Hfind. rewrite Hfind. unfold then_catch, unhandled, call.
    now rewrite emit_emit.
Qed.

(** ** connect, when something fails *)

Section ConnectFailures.

Import TwitterClient.

Variable env : Env.

Lemma connect_reload (w : World) : utils_reload (snd (connect env w)) = false.
Proof.
  unfold connect, close.
  unfold on_connection_aborted.
  unfold bind, get, set_reload, set_ids, set_connection, call, then_catch,
    unhandled, ret, throw, emit.
  destruct w as [ids0 reload0 recent0 conn0 trace0]. simpl.
  destruct conn0 as [[[|]]|]; simpl;
    (destruct (feedsFind env) as [results | err]; simpl;
     [ destruct (map twitter_id results) as [|id ids] eqn:Hids; simpl;
       [ | destruct (streamThrows env (id :: ids)); simpl ]
     | ]);
    reflexivity.
Qed.

Lemma connect_rejected (w : World) (err : JsError) :
  feedsFind env = Rejected err ->
  utils_ids (snd (connect env w))
  = (if existingConnection w then [] else utils_ids w)
  /\ twitter_connection (snd (connect env w))
     = (if existingConnection w
        then transportClose env (twitter_connection w)
        else twitter_connection w).
Proof.
  intros Hfind. unfold connect, close, existingConnection.
  unfold on_connection_aborted.
  unfold bind, get, set_reload, set_ids, set_connection, call, then_catch,
    unhandled, ret, throw, emit.
  destruct w as [ids0 reload0 recent0 conn0 trace0]. simpl. rewrite Hfind.
  destruct conn0 as [[[|]]|]; simpl; split; reflexivity.
Qed.

Lemma connect_stream_throws (w : World) (results : list Feed) (e : JsError) :
  feedsFind env = Resolved results ->
  map twitter_id results <> [] ->
  streamThrows env (map twitter_id results) = Some e ->
  twitter_connection (snd (connect env w))
  = (if existingConnection w
     then transportClose env (twitter_connection w)
     else twitter_connection w).
Proof.
  intros Hfind Hids Hthrows. unfold connect, close, existingConnection.
  unfold on_connection_aborted.
  unfold bind, get, set_reload, set_ids, set_connection, call, then_catch,
    unhandled, ret, throw, emit.
  destruct w as [ids0 reload0 recent0 conn0 trace0]. simpl. rewrite Hfind.
  destruct (map twitter_id results) as [|id ids]; [congruence|].
  destruct conn0 as [[[|]]|]; simpl; rewrite Hthrows; reflexivity.
Qed.

End ConnectFailures.

(** When the database read of [connect] is rejected, the error is
    logged and nothing else follows: no stream is opened and
    [utils.reload] is cleared all the same. Without a connection to
    close, [utils.ids] keeps the ids it had; with one, the close has
    run the ['connection aborted'] listener, [utils.ids] stays empty
    and the connection is what the close left. *)
Theorem connect_database_failure
        (env : Env) (w : World) (err : JsError) :
  feedsFind env = Rejected err ->
  newCalls (TwitterClient.connect env) w
  = ((if existingConnection w
      then [TwitterClose; Console Warn [LStr "twitter: connection aborted"]]
      else [])
     ++ [FeedsFind; Console Err [LStr "error reading from mongodb"; LErr err]])%list
  /\ utils_ids (snd (TwitterClient.connect env w))
     = (if existingConnection w then [] else utils_ids w)
  /\ utils_reload (snd (TwitterClient.connect env w)) = false
  /\ twitter_connection (snd (TwitterClient.connect env w))
     = (if existingConnection w
        then transportClose env (twitter_connection w)
        else twitter_connection w).
Proof.
  intros Hfind. split; [|split; [|split]].
  - rewrite connect_calls. unfold afterFind. now rewrite Hfind.
  - now apply (connect_rejected env w err).
  - apply connect_reload.
  - now apply (connect_rejected env w err).
Qed.

Lemma connect_database_failure_witness :
  newCalls (TwitterClient.connect Sample.envNoDatabase) Sample.world
  = [TwitterClose; Console Warn [LStr "twitter: connection aborted"]; FeedsFind;
     Console Err [LStr "error reading from mongodb"; LErr (ExternalError "ECONNREFUSED")]]
  /\ utils_ids (snd (TwitterClient.connect Sample.envNoDatabase Sample.world)) = [].
Proof.
  destruct (connect_database_failure Sample.envNoDatabase Sample.world
              (ExternalError "ECONNREFUSED") eq_refl) as (Hcalls & Hids & _).
  split; [exact Hcalls | exact Hids].
Defined.

(** An exception of [twitter.stream] ends in the [.catch] of the
    database read: [connect] returns, the exception is logged under
    the message of a failed database read, [utils.ids] already holds
    the new ids, and the connection is what closing the old one left. *)
Theorem connect_stream_exception
        (env : Env) (w : World) (results : list Feed) (e : JsError) :
  feedsFind env = Resolved results ->
  map twitter_id results <> [] ->
  streamThrows env (map twitter_id results) = Some e ->
  fst (TwitterClient.connect env w) = Normal tt
  /\ (exists pre,
         newCalls (TwitterClient.connect env) w
         = (pre ++ [TwitterStream "statuses/filter" (map twitter_id results) true;
                    Console Err [LStr "error reading from mongodb"; LErr e]])%list)
  /\ utils_ids (snd (TwitterClient.connect env w)) = map twitter_id results
  /\ twitter_connection (snd (TwitterClient.connect env w))
     = (if existingConnection w
        then transportClose env (twitter_connection w)
        else twitter_connection w).
Proof.
  intros Hfind Hids Hthrows. split; [apply connect_returns|].
  split; [|split].
  - rewrite connect_calls. unfold afterFind. rewrite Hfind.
    destruct (map twitter_id results) as [|id ids] eqn:Hmap; [congruence|].
    rewrite Hthrows.
    eexists ((if existingConnection w then closing else [])
               ++ [FeedsFind; _; _])%list.
    rewrite <- app_assoc. reflexivity.
  - now apply connect_ids.
  - now apply (connect_stream_throws env w results e).
Qed.

Lemma connect_stream_exception_witness :
  fst (TwitterClient.connect Sample.envNoStream Sample.world) = Normal tt
  /\ utils_ids (snd (TwitterClient.connect Sample.envNoStream Sample.world)) = ["7"; "8"].
Proof.
  destruct (connect_stream_exception Sample.envNoStream Sample.world
              [mkFeed "7"; mkFeed "8"] (ExternalError "stream")) as (Hret & _ & Hids & _);
    try reflexivity; try discriminate.
  split; [exact Hret | exact Hids].
Defined.

(** ** The reload timer *)

(** The reload timer does nothing while [utils.reload] is unset; when
    it is set the timer reconnects, and whatever the reconnect meets
    the flag is unset afterwards, so that the next tick does nothing
    unless the flag was set again from outside. *)
Theorem reload_timer_fires_once (env : Env) (w : World) :
  (utils_reload w = false -> TwitterClient.reloadCheck env w = (Normal tt, w))
  /\ (utils_reload w = true ->
      TwitterClient.reloadCheck env w
      = TwitterClient.connect env
          (emit [Console Log [LStr "Scheduled restart of Twitter Client"]] w))
  /\ utils_reload (snd (TwitterClient.reloadCheck env w)) = false
  /\ TwitterClient.reloadCheck env (snd (TwitterClient.reloadCheck env w))
     = (Normal tt, snd (TwitterClient.reloadCheck env w)).
Proof.
  assert (Hoff : forall w', utils_reload w' = false ->
                   TwitterClient.reloadCheck env w' = (Normal tt, w')).
  { intros w' H. unfold TwitterClient.reloadCheck, bind, get. now rewrite H. }
  assert (Hon : utils_reload w = true ->
                TwitterClient.reloadCheck env w
                = TwitterClient.connect env
                    (emit [Console Log [LStr "Scheduled restart of Twitter Client"]] w)).
  { intros H. unfold TwitterClient.reloadCheck, bind, get, call. now rewrite H. }
  assert (Hafter : utils_reload (snd (TwitterClient.reloadCheck env w)) = false).
  { destruct (utils_reload w) eqn:Hflag.
    - rewrite (Hon eq_refl). apply connect_reload.
    - now rewrite (Hoff w Hflag). }
  split; [apply Hoff|]. split; [exact Hon|]. split; [exact Hafter|].
  apply Hoff, Hafter.
Qed.

Lemma reload_timer_fires_once_witness :
  utils_reload (snd (TwitterClient.reloadCheck Sample.env Sample.worldReload)) = false
  /\ streams (newCalls (TwitterClient.reloadCheck Sample.env) Sample.worldReload)
     = [("statuses/filter", ["7"; "8"], true)].
Proof.
  destruct (reload_timer_fires_once Sample.env Sample.worldReload)
    as (_ & Hon & Hafter & _).
  split; [exact Hafter|].
  unfold newCalls. rewrite (Hon eq_refl). vm_compute. reflexivity.
Defined.

(** ** The listeners that only log *)

(** The listeners of ['connection success'], ['connection error
    network'], ['connection error stall'], ['connection rate limit'],
    ['data keep-alive'] and ['data error'] return after at most one
    console line: they change neither [utils.ids], [utils.reload], the
    window nor the connection, and they neither close nor reopen the
    stream, which is left to the transport. *)
Theorem passive_listeners_only_log
        (env : Env) (ev : TwitterClient.Event) (w : World) :
  passive ev = true ->
  exists cs,
    TwitterClient.listener env ev w = (Normal tt, emit cs w)
    /\ List.length cs <= 1
    /\ forallb isConsole cs = true.
Proof.
  intros Hpassive. destruct ev; try discriminate Hpassive; simpl;
    try (eexists [_]; split; [reflexivity | split; [simpl; lia | reflexivity]]).
  exists []. split; [|split; [simpl; lia | reflexivity]].
  unfold TwitterClient.on_data_keep_alive, ret. now rewrite emit_nil.
Qed.

Lemma passive_listeners_only_log_witness :
  exists cs,
    TwitterClient.listener Sample.env TwitterClient.ConnectionErrorStall Sample.world
    = (Normal tt, emit cs Sample.world)
    /\ List.length cs <= 1
    /\ forallb isConsole cs = true.
Proof.
  apply (passive_listeners_only_log Sample.env TwitterClient.ConnectionErrorStall
           Sample.world).
  reflexivity.
Defined.

(** ** The retention sweep, continued *)

Section SweepReports.

Import TwitterClient.

Variable env : Env.

Lemma statCallback_unlinked (file : string) :
  exists cs, forall w,
      statCallback env file w = (Normal (expired env file), emit cs w).
Proof.
  unfold statCallback, expired.
  destruct (stat env (joinFolder file)) as [e | ctime].
  - exists [Console Err [LErr e]]. intros w. reflexivity.
  - destruct (Z.gtb (now env (joinFolder file)) (ctime + retention)).
    + exists [Unlink (joinFolder file)]. intros w. reflexivity.
    + exists []. intros w. unfold ret. now rewrite emit_nil.
Qed.

(** [fs.unlink] is called for the expired files and for no other. *)
Lemma statCallbacks_unlinked (files : list string) :
  exists cs, forall w,
      statCallbacks env files w = (Normal (filter (expired env) files), emit cs w).
Proof.
  induction files as [|file files (cs & IH)].
  - exists []. intros w. simpl. unfold ret. now rewrite emit_nil.
  - destruct (statCallback_unlinked file) as (c & Hhead).
    exists (c ++ cs)%list. intros w. simpl. unfold bind, ret.
    rewrite Hhead, IH, emit_emit.
    destruct (expired env file); reflexivity.
Qed.

Lemma unlinkCallbacks_reports (unlinked : list string) (w : World) :
  forEach (unlinkCallback env) unlinked w
  = (Normal tt, emit (map (unlinkReport env) unlinked) w).
Proof.
  revert w. induction unlinked as [|file unlinked IH]; intros w; simpl.
  - unfold ret. now rewrite emit_nil.
  - unfold bind, unlinkCallback at 1, unlinkReport at 1.
    destruct (unlink env (joinFolder file)); unfold call;
      rewrite IH; now rewrite emit_emit.
Qed.

End SweepReports.

(** When the folder cannot be listed the sweep logs the error and
    stops: no file is examined and none is removed. *)
Theorem sweep_stops_when_listing_fails (env : Env) (w : World) (e : JsError) :
  readdir env "./tweets" = inl e ->
  TwitterClient.removeOldFiles env w
  = (Normal tt, emit [Readdir "./tweets"; Console Err [LErr e]] w).
Proof.
  intros H. unfold TwitterClient.removeOldFiles, bind, call.
  rewrite H. now rewrite emit_emit.
Qed.

Lemma sweep_stops_when_listing_fails_witness :
  newCalls (TwitterClient.removeOldFiles Sample.envNoFolder) Sample.world
  = [Readdir "./tweets"; Console Err [LErr (ExternalError "ENOENT")]].
Proof.
  eapply newCalls_emit.
  apply (sweep_stops_when_listing_fails Sample.envNoFolder Sample.world
           (ExternalError "ENOENT")).
  reflexivity.
Defined.

(** The callback given to [fs.unlink] is [console.error] itself, so
    every removal is reported on the error stream, a successful one as
    [null]: for every expired file of the listing the sweep calls
    [fs.unlink] on it and calls [console.error] with what that call
    gave, the error or [null]. *)
Theorem sweep_reports_every_unlink
        (env : Env) (w : World) (files : list string) :
  readdir env "./tweets" = inr files ->
  forall file,
    In file files -> expired env file = true ->
    In (Unlink (TwitterClient.joinFolder file))
       (newCalls (TwitterClient.removeOldFiles env) w)
    /\ In (unlinkReport env file) (newCalls (TwitterClient.removeOldFiles env) w)
    /\ (unlink env (TwitterClient.joinFolder file) = None ->
        In (Console Err [LNull]) (newCalls (TwitterClient.removeOldFiles env) w)).
Proof.
  intros Hreaddir file Hfile Hexpired.
  destruct (statCallbacks_unlinked env files) as (cs & Hrun).
  destruct (statCallbacks_calls env files) as (unlinked & cs' & Hrun' & Hunlink & _).
  assert (Hcs : cs' = cs).
  { pose proof (Hrun w) as H1. rewrite (Hrun' w) in H1.
    injection H1 as _ H1. now apply app_inv_head in H1. }
  subst cs'.
  assert (Hsweep : TwitterClient.removeOldFiles env w =
                   (Normal tt,
                    emit (Readdir "./tweets"
                            :: map (fun file => Stat (TwitterClient.joinFolder file)) files
                            ++ cs
                            ++ map (unlinkReport env) (filter (expired env) files))%list w)).
  { unfold TwitterClient.removeOldFiles. rewrite Hreaddir.
    unfold bind, call. rewrite stats_calls, Hrun, unlinkCallbacks_reports.
    rewrite !emit_emit. reflexivity. }
  rewrite (newCalls_emit _ _ _ _ Hsweep).
  assert (Hreport : In (unlinkReport env file)
                       (Readdir "./tweets"
                          :: map (fun file => Stat (TwitterClient.joinFolder file)) files
                          ++ cs
                          ++ map (unlinkReport env) (filter (expired env) files))%list).
  { right. apply in_or_app. right. apply in_or_app. right.
    apply in_map. apply filter_In. now split. }
  split; [|split].
  - right. apply in_or_app. right. apply in_or_app. left.
    apply Hunlink. exists file. now repeat split.
  - exact Hreport.
  - intros Hok. unfold unlinkReport in Hreport. now rewrite Hok in Hreport.
Qed.

Lemma sweep_reports_every_unlink_witness :
  In (Console Err [LNull])
     (newCalls (TwitterClient.removeOldFiles Sample.env) Sample.world).
Proof.
  destruct (sweep_reports_every_unlink Sample.env Sample.world
              ["old.json"; "new.json"; "gone.json"] eq_refl "old.json")
    as (_ & _ & Hreport); [simpl; tauto | reflexivity |].
  apply Hreport. reflexivity.
Defined.

(** ** The archive file of a manual post *)

Section ArchivePaths.

Lemma length_append' (a b : string) :
  String.length (a ++ b) = String.length a + String.length b.
Proof. induction a as [|c a IH]; simpl; [reflexivity | now rewrite IH]. Qed.

End ArchivePaths.

(** A post injected by hand is archived under another name than the
    same post received from the stream, so neither archive overwrites
    the other. *)
Theorem manual_archive_has_its_own_file (t : Tweet) :
  TweetHandler.archivePath t true <> TweetHandler.archivePath t false.
Proof.
  unfold TweetHandler.archivePath. intros H.
  apply (f_equal String.length) in H.
  rewrite !length_append' in H. simpl in H. lia.
Qed.

(** ** After the stream was aborted *)

(** Once ['connection aborted'] has emptied [utils.ids], every post
    handed to the handler, streamed or injected by hand, is dropped by
    the author filter without any call, whoever its author is: nothing
    is archived or delivered until [connect] has read the ids again. *)
Theorem nothing_is_delivered_after_abort
        (env : Env) (t : Tweet) (manual : bool) (w : World) :
  TweetHandler.tweetHandler env (Post t) manual
                            (snd (TwitterClient.on_connection_aborted w))
  = (Normal tt, snd (TwitterClient.on_connection_aborted w)).
Proof. apply tweetHandler_unregistered. reflexivity. Qed.

(** ** What the dispatch meets *)

(** For a post that reaches the dispatch, neither a rejected media
    batch nor an exception of [discordClient.send] leaves the handler
    (lines 132-144): whether the batch resolves or rejects and whether
    [discordClient.send] returns or throws, the handler completes
    normally, and [discordClient.send] has been called with the post
    and the display string. [utils.promiseSome] itself is taken to
    return its promise. *)
Theorem dispatch_failures_stay_inside
        (env : Env) (t : Tweet) (manual : bool) (w : World)
        (ms : list MediaEntry) (str : string) :
  JS.includes (user_id_str (user t)) (utils_ids w) = true ->
  (manual = true \/ JS.includes (id_str t) (recentTweets w) = false) ->
  writeFileSync env (TweetHandler.archivePath t manual) = None ->
  TweetHandler.nonSelfReply t = false ->
  TweetHandler.normalize env t = Normal (ms, str) ->
  fst (TweetHandler.tweetHandler env (Post t) manual w) = Normal tt
  /\ In (DiscordSend t str)
        (newCalls (TweetHandler.tweetHandler env (Post t) manual) w).
Proof.
  intros Hauthor Hgate Hwrite Hreply Hnorm.
  destruct (tweetHandler_passed env t manual w Hauthor Hgate) as (-> & ->).
  assert (Hdeliver : exists cs,
             TweetHandler.deliver env t manual w = (Normal tt, emit cs w)
             /\ In (DiscordSend t str) cs).
  { unfold TweetHandler.deliver, bind, call, liftC.
    rewrite Hwrite, Hreply, Hnorm. simpl.
    unfold TweetHandler.dispatch, bind, call.
    unfold then_catch, unhandled, TweetHandler.discordClient_send, bind, call, throw, ret.
    destruct (promiseSome env
                (map (fun m => TweetHandler.processMediaEntry m (id_str t)) ms));
      destruct (send env t str); simpl; rewrite ?emit_emit;
      (eexists; split; [reflexivity | simpl; tauto]). }
  destruct Hdeliver as (cs & Hrun & Hsent).
  rewrite (newCalls_emit _ _ _ _ Hrun), Hrun. split; [reflexivity | exact Hsent].
Qed.

Lemma dispatch_failures_stay_inside_witness :
  fst (TweetHandler.tweetHandler Sample.envThrowing (Post Sample.retweet) false
                                 Sample.world)
  = Normal tt.
Proof.
  apply (dispatch_failures_stay_inside Sample.envThrowing Sample.retweet false
           Sample.world (fst Sample.retweetNormalized) (snd Sample.retweetNormalized));
    try reflexivity.
  right. reflexivity.
Defined.


(** ** Other messages of the stream *)


(** ** C6: urls that do not overlap are wrapped once each *)

Section Occurrences.

Lemma startsWith_nil (u : string) : JS.startsWith u "" = true -> u = "".
Proof. destruct u; [reflexivity | discriminate]. Qed.

Lemma startsWith_app (u a b : string) :
  JS.startsWith u a = true -> JS.startsWith u (a ++ b) = true.
Proof.
  revert a. induction u as [|x u IH]; intros a H; [reflexivity|].
  destruct a as [|y a]; [discriminate H|]. simpl in *.
  apply andb_prop in H. destruct H as [Hxy Hrest].
  now rewrite Hxy, (IH a Hrest).
Qed.

Lemma startsWith_self (u b : string) : JS.startsWith u (u ++ b) = true.
Proof.
  induction u as [|x u IH]; [reflexivity|]. simpl.
  now rewrite Ascii.eqb_refl, IH.
Qed.

(** A string without [c] cannot begin across a [c]. *)
Lemma startsWith_sep (c : ascii) (u a b : string) :
  lacks c u = true ->
  JS.startsWith u (a ++ String c b) = JS.startsWith u a.
Proof.
  revert u. induction a as [|y a IH]; intros u Hu.
  - destruct u as [|x u]; [reflexivity|]. simpl in *.
    apply andb_prop in Hu. destruct Hu as [Hx _].
    apply negb_true_iff in Hx. now rewrite Hx.
  - destruct u as [|x u]; [reflexivity|]. simpl in *.
    apply andb_prop in Hu. destruct Hu as [_ Hu]. now rewrite (IH u Hu).
Qed.

Lemma drop_app_startsWith (u a b : string) :
  JS.startsWith u a = true ->
  JS.drop (String.length u) (a ++ b) = JS.drop (String.length u) a ++ b.
Proof.
  revert a. induction u as [|x u IH]; intros a H; [reflexivity|].
  destruct a as [|y a]; [discriminate H|]. simpl in *.
  apply andb_prop in H. destruct H as [_ H]. now apply IH.
Qed.

Lemma occurs_nil (u : string) : occurs u "" = true -> u = "".
Proof.
  unfold occurs. simpl. destruct (JS.startsWith u "") eqn:H; [|discriminate].
  intros _. now apply startsWith_nil.
Qed.

Lemma occurs_cons (u s : string) (c : ascii) :
  occurs u (String c s) = (JS.startsWith u (String c s) || occurs u s)%bool.
Proof.
  unfold occurs. cbn [JS.indexOf].
  destruct (JS.startsWith u (String c s)); [reflexivity|].
  now destruct (JS.indexOf u s).
Qed.

Lemma occurs_startsWith (u s : string) :
  JS.startsWith u s = true -> occurs u s = true.
Proof.
  intros H. unfold occurs. destruct s; simpl; simpl in H; now rewrite H.
Qed.

Lemma occurs_app_r (u a b : string) : occurs u b = true -> occurs u (a ++ b) = true.
Proof.
  intros H. induction a as [|c a IH]; [exact H|].
  simpl. rewrite occurs_cons, IH. apply orb_true_r.
Qed.

Lemma occurs_app_l (u a b : string) : occurs u a = true -> occurs u (a ++ b) = true.
Proof.
  induction a as [|c a IH]; intros H.
  - apply occurs_nil in H. subst u. now apply occurs_startsWith.
  - rewrite occurs_cons in H. simpl. rewrite occurs_cons.
    apply orb_prop in H. destruct H as [H | H].
    + change (String c (a ++ b)) with (String c a ++ b).
      now rewrite (startsWith_app _ _ b H).
    + rewrite (IH H). apply orb_true_r.
Qed.

(** Two beginnings of one text: one is a beginning of the other. *)
Lemma startsWith_comparable (u v b : string) :
  JS.startsWith u (v ++ b) = true ->
  JS.startsWith u v = true \/ JS.startsWith v u = true.
Proof.
  revert v. induction u as [|x u IH]; intros v H; [now left|].
  destruct v as [|y v]; [now right|]. simpl in *.
  apply andb_prop in H. destruct H as [Hxy H].
  rewrite Hxy. apply Ascii.eqb_eq in Hxy. subst y. rewrite Ascii.eqb_refl.
  exact (IH v H).
Qed.

Lemma meets_tail (x : ascii) (u v : string) :
  meets (String x u) v = false -> meets u v = false.
Proof.
  cbn [meets]. intros H. apply orb_false_elim in H. tauto.
Qed.

Lemma meets_head (x : ascii) (u v : string) :
  meets (String x u) v = false ->
  JS.startsWith (String x u) v = false /\ JS.startsWith v (String x u) = false.
Proof.
  cbn [meets]. intros H. apply orb_false_elim in H. destruct H as [H _].
  apply orb_false_elim in H. exact H.
Qed.

(** An occurrence of [u] that begins before [v] ends before [v]. *)
Lemma startsWith_before (u v a b : string) :
  meets u v = false ->
  JS.startsWith u (a ++ v ++ b) = true -> JS.startsWith u a = true.
Proof.
  revert u. induction a as [|y a IH]; intros u Hmeets H.
  - destruct u as [|x u]; [reflexivity|].
    change ("" ++ v ++ b) with (v ++ b) in H.
    apply startsWith_comparable in H. apply meets_head in Hmeets.
    destruct H as [H | H]; [rewrite (proj1 Hmeets) in H | rewrite (proj2 Hmeets) in H];
      discriminate H.
  - destruct u as [|x u]; [reflexivity|]. simpl in *.
    apply andb_prop in H. destruct H as [Hxy H]. rewrite Hxy.
    apply (IH u (meets_tail x u v Hmeets) H).
Qed.

(** An occurrence of [u] cannot begin inside [v]. *)
Lemma occurs_after (u v b : string) :
  meets v u = false -> occurs u (v ++ b) = true -> occurs u b = true.
Proof.
  induction v as [|y v IH]; intros Hmeets H; [exact H|].
  simpl in H. rewrite occurs_cons in H. apply orb_prop in H.
  destruct H as [H | H].
  - change (String y (v ++ b)) with (String y v ++ b) in H.
    apply startsWith_comparable in H. apply meets_head in Hmeets.
    destruct H as [H | H]; [rewrite (proj2 Hmeets) in H | rewrite (proj1 Hmeets) in H];
      discriminate H.
  - apply (IH (meets_tail y v u Hmeets) H).
Qed.

(** Urls that do not overlap: an occurrence of [u] in a text around an
    occurrence of [v] lies before it or after it. *)
Lemma occurs_apart (u v a b : string) :
  overlaps u v = false ->
  occurs u (a ++ v ++ b) = true -> occurs u a = true \/ occurs u b = true.
Proof.
  unfold overlaps. intros Hover. apply orb_false_elim in Hover.
  destruct Hover as [Huv Hvu].
  induction a as [|c a IH]; intros H.
  - right. exact (occurs_after u v b Hvu H).
  - simpl in H. rewrite occurs_cons in H. apply orb_prop in H.
    destruct H as [H | H].
    + left. apply occurs_startsWith.
      change (String c (a ++ v ++ b)) with (String c a ++ v ++ b) in H.
      exact (startsWith_before u v (String c a) b Huv H).
    + destruct (IH H) as [Ha | Hb]; [left | now right].
      rewrite occurs_cons, Ha. apply orb_true_r.
Qed.

Lemma append_nil_r' (s : string) : s ++ "" = s.
Proof. induction s as [|c s IH]; simpl; [reflexivity | now rewrite IH]. Qed.

(** A url does not occur in another one that it does not overlap. *)
Lemma occurs_inside (u w : string) :
  overlaps u w = false -> u <> w -> occurs u w = false.
Proof.
  intros Hover Hneq. destruct (occurs u w) eqn:H; [|reflexivity]. exfalso.
  unfold overlaps in Hover. apply orb_false_elim in Hover.
  destruct Hover as [_ Hwu].
  rewrite <- (append_nil_r' w) in H. apply (occurs_after u w "" Hwu) in H.
  apply occurs_nil in H. subst u.
  destruct w as [|y w]; [now apply Hneq|].
  apply meets_head in Hwu. destruct Hwu as [_ Hwu]. discriminate Hwu.
Qed.

End Occurrences.

Section WrappedTexts.

Lemma wrapFirst_cons (u s : string) (c : ascii) :
  JS.hasDollar u = false ->
  wrapFirst (String c s) u
  = if JS.startsWith u (String c s)
    then "<" ++ u ++ ">" ++ JS.drop (String.length u) (String c s)
    else String c (wrapFirst s u).
Proof.
  intros Hplain. destruct (JS.startsWith u (String c s)) eqn:Hstart.
  - rewrite (wrapFirst_found _ u 0 Hplain); [reflexivity|].
    cbn [JS.indexOf]. now rewrite Hstart.
  - destruct (JS.indexOf u s) as [j|] eqn:Hindex.
    + rewrite (wrapFirst_found _ u (S j) Hplain).
      * rewrite (wrapFirst_found s u j Hplain Hindex). reflexivity.
      * cbn [JS.indexOf]. now rewrite Hstart, Hindex.
    + rewrite !wrapFirst_missing; [reflexivity | exact Hindex |].
      cbn [JS.indexOf]. now rewrite Hstart, Hindex.
Qed.

(** Wrapping in a text cut by a character that the url lacks: the
    first occurrence is before the cut if there is one there, and
    after it otherwise. *)
Lemma wrapFirst_sep (c : ascii) (u a b : string) :
  JS.hasDollar u = false -> lacks c u = true ->
  wrapFirst (a ++ String c b) u
  = if occurs u a
    then wrapFirst a u ++ String c b
    else a ++ String c (wrapFirst b u).
Proof.
  intros Hplain Hlacks. induction a as [|y a IH].
  - change ("" ++ String c b) with (String c b).
    rewrite (wrapFirst_cons u b c Hplain).
    change (String c b) with ("" ++ String c b) at 1.
    rewrite (startsWith_sep c u "" b Hlacks).
    unfold occurs. simpl.
    destruct (JS.startsWith u "") eqn:Hstart; [|reflexivity].
    apply startsWith_nil in Hstart. subst u. reflexivity.
  - change (String y a ++ String c b) with (String y (a ++ String c b)).
    rewrite (wrapFirst_cons u _ y Hplain).
    change (String y (a ++ String c b)) with (String y a ++ String c b).
    rewrite (startsWith_sep c u (String y a) b Hlacks).
    rewrite occurs_cons.
    destruct (JS.startsWith u (String y a)) eqn:Hstart.
    + rewrite (drop_app_startsWith u (String y a) (String c b) Hstart).
      rewrite (wrapFirst_cons u a y Hplain), Hstart.
      change ("<" ++ u ++ ">" ++ JS.drop (String.length u) (String y a))
        with (String "<" (u ++ String ">" (JS.drop (String.length u) (String y a)))).
      change ("<" ++ u ++ ">" ++ JS.drop (String.length u) (String y a) ++ String c b)
        with (String "<" (u ++ String ">" (JS.drop (String.length u) (String y a)
                                              ++ String c b))).
      cbn [String.append]. f_equal.
      rewrite (append_assoc' u (String ">" (JS.drop (String.length u) (String y a)))
                             (String c b)).
      reflexivity.
    + simpl. rewrite IH, (wrapFirst_cons u a y Hplain), Hstart.
      destruct (occurs u a); reflexivity.
Qed.

Lemma clean_parts (u : string) :
  clean u = true ->
  JS.hasDollar u = false /\ lacks "<" u = true /\ lacks ">" u = true.
Proof.
  unfold clean. intros H. apply andb_prop in H. destruct H as [H H3].
  apply andb_prop in H. destruct H as [H1 H2].
  apply negb_true_iff in H1. tauto.
Qed.

(** Wrapping a clean url in a text that holds wrapped urls in which it
    does not occur wraps its first occurrence in a stretch of text. *)
Lemma wrapFirst_render (u : string) (segs : list (string * string)) (last : string) :
  clean u = true ->
  (forall w, In w (map snd segs) -> occurs u w = false) ->
  wrapFirst (render segs last) u
  = render (fst (wrapIn u segs last)) (snd (wrapIn u segs last)).
Proof.
  intros Hclean. destruct (clean_parts u Hclean) as (Hplain & Hlt & Hgt).
  induction segs as [|[plain w] segs IH]; intros Hurls.
  - simpl. destruct (JS.indexOf u last) as [i|] eqn:Hindex.
    + simpl. now apply wrapFirst_found.
    + simpl. now apply wrapFirst_missing.
  - cbn [render wrapIn].
    change (plain ++ "<" ++ w ++ ">" ++ render segs last)
      with (plain ++ String "<" (w ++ String ">" (render segs last))).
    rewrite (wrapFirst_sep "<" u plain _ Hplain Hlt).
    unfold occurs at 1. destruct (JS.indexOf u plain) as [i|] eqn:Hindex.
    + rewrite (wrapFirst_found plain u i Hplain Hindex). cbn [fst snd render].
      rewrite !append_assoc'. simpl. rewrite ?append_assoc'. reflexivity.
    + rewrite (wrapFirst_sep ">" u w _ Hplain Hgt).
      rewrite (Hurls w) by now left.
      rewrite IH by (intros w' Hw'; apply Hurls; now right).
      reflexivity.
Qed.

Lemma unwrapped_wrapIn (u : string) (segs : list (string * string)) (last : string) :
  unwrapped (fst (wrapIn u segs last)) (snd (wrapIn u segs last))
  = unwrapped segs last.
Proof.
  induction segs as [|[plain w] segs IH]; simpl.
  - destruct (JS.indexOf u last) as [i|] eqn:Hindex; [|reflexivity].
    simpl. symmetry. now apply indexOf_split.
  - destruct (JS.indexOf u plain) as [i|] eqn:Hindex; simpl.
    + rewrite (indexOf_split u plain i Hindex) at 3.
      rewrite !append_assoc'. reflexivity.
    + now rewrite IH.
Qed.

(** The urls wrapped after the step: those before, and [u] when it
    occurs in a stretch of text. *)
Lemma urls_wrapIn (u : string) (segs : list (string * string)) (last : string)
      (v : string) :
  In v (map snd (fst (wrapIn u segs last)))
  <-> (v = u /\ existsb (occurs u) (plains segs last) = true)
      \/ In v (map snd segs).
Proof.
  unfold plains. induction segs as [|[plain w] segs IH]; simpl.
  - unfold occurs. destruct (JS.indexOf u last); simpl.
    + split; [intros [<- | []]; now left | intros [[-> _] | []]; now left].
    + split; [intros [] | intros [[_ H] | []]; discriminate H].
  - unfold occurs at 1. destruct (JS.indexOf u plain) as [i|]; simpl.
    + split.
      * intros [<- | [<- | H]]; [left | right | right]; tauto.
      * intros [[-> _] | [<- | H]]; tauto.
    + rewrite IH. tauto.
Qed.

Lemma NoDup_wrapIn (u : string) (segs : list (string * string)) (last : string) :
  ~ In u (map snd segs) -> NoDup (map snd segs) ->
  NoDup (map snd (fst (wrapIn u segs last))).
Proof.
  induction segs as [|[plain w] segs IH]; simpl; intros Hnew Hnd.
  - destruct (JS.indexOf u last); simpl; repeat constructor. intros [].
  - inversion Hnd as [|? ? Hw Hnd']; subst.
    destruct (JS.indexOf u plain) as [i|]; simpl.
    + constructor; [exact Hnew | exact Hnd].
    + constructor.
      * intros H. apply urls_wrapIn in H. destruct H as [[-> _] | H]; tauto.
      * apply IH; tauto.
Qed.

(** A url that does not overlap [u] and occurs in a stretch of text
    still occurs in one after [u] was wrapped. *)
Lemma plains_wrapIn (u u' : string) (segs : list (string * string)) (last : string) :
  overlaps u' u = false ->
  existsb (occurs u') (plains segs last) = true ->
  existsb (occurs u')
          (plains (fst (wrapIn u segs last)) (snd (wrapIn u segs last))) = true.
Proof.
  intros Hover. unfold plains.
  assert (Hsplit : forall s i, JS.indexOf u s = Some i -> occurs u' s = true ->
            occurs u' (JS.take i s) = true
            \/ occurs u' (JS.drop (i + String.length u) s) = true).
  { intros s i Hindex H. rewrite (indexOf_split u s i Hindex) in H.
    exact (occurs_apart u' u _ _ Hover H). }
  induction segs as [|[plain w] segs IH]; simpl.
  - rewrite orb_false_r. intros H.
    destruct (JS.indexOf u last) as [i|] eqn:Hindex; simpl.
    + destruct (Hsplit last i Hindex H) as [-> | ->];
        rewrite ?orb_true_r; reflexivity.
    + now rewrite H.
  - intros H. destruct (JS.indexOf u plain) as [i|] eqn:Hindex; simpl.
    + apply orb_prop in H. destruct H as [H | H].
      * destruct (Hsplit plain i Hindex H) as [-> | ->];
          rewrite ?orb_true_r; reflexivity.
      * rewrite H. rewrite !orb_true_r. reflexivity.
    + apply orb_prop in H. destruct H as [-> | H]; [reflexivity|].
      rewrite (IH H). apply orb_true_r.
Qed.

(** What occurs in a stretch of text occurs in the whole text. *)
Lemma plains_unwrapped (u : string) (segs : list (string * string)) (last : string) :
  existsb (occurs u) (plains segs last) = true ->
  occurs u (unwrapped segs last) = true.
Proof.
  unfold plains. induction segs as [|[plain w] segs IH]; simpl.
  - now rewrite orb_false_r.
  - intros H. apply orb_prop in H. destruct H as [H | H].
    + now apply occurs_app_l.
    + apply occurs_app_r, occurs_app_r, IH, H.
Qed.

(** A wrapped url stands in the text with its brackets. *)
Lemma render_occurs (u : string) (segs : list (string * string)) (last : string) :
  In u (map snd segs) -> occurs ("<" ++ u ++ ">") (render segs last) = true.
Proof.
  induction segs as [|[plain w] segs IH]; simpl; [intros []|].
  intros [-> | H].
  - apply occurs_app_r. apply occurs_startsWith.
    change (String "<" (u ++ String ">" (render segs last)))
      with (String "<" (u ++ ">" ++ render segs last)).
    rewrite <- (append_assoc' u ">" (render segs last)).
    apply (startsWith_self (String "<" (u ++ ">")) (render segs last)).
  - apply occurs_app_r. rewrite occurs_cons. apply orb_true_iff. right.
    apply occurs_app_r. rewrite occurs_cons. apply orb_true_iff. right.
    exact (IH H).
Qed.

End WrappedTexts.

Section SeparateUrls.

Lemma separate_spec (urls : list string) :
  separate urls = true ->
  (forall u, In u urls -> clean u = true)
  /\ (forall u v, In u urls -> In v urls -> u <> v -> overlaps u v = false).
Proof.
  unfold separate. intros H. rewrite forallb_forall in H. split.
  - intros u Hu. specialize (H u Hu). apply andb_prop in H. tauto.
  - intros u v Hu Hv Hneq. specialize (H u Hu). apply andb_prop in H.
    destruct H as [_ H]. rewrite forallb_forall in H. specialize (H v Hv).
    apply orb_prop in H. destruct H as [H | H].
    + apply String.eqb_eq in H. contradiction.
    + now apply negb_true_iff in H.
Qed.

(** One [replace] per url, for distinct clean urls that do not overlap:
    the result is the text with disjoint occurrences wrapped, one for
    each url that occurs in it. The last part is what the induction
    carries: a url that overlaps none of those treated so far still
    occurs in a stretch of text if it occurs in the text. *)
Lemma wrapFirst_all (text : string) (urls : list string) :
  NoDup urls ->
  (forall u, In u urls -> clean u = true) ->
  (forall u v, In u urls -> In v urls -> u <> v -> overlaps u v = false) ->
  exists segs last,
    fold_left wrapFirst urls text = render segs last
    /\ unwrapped segs last = text
    /\ NoDup (map snd segs)
    /\ (forall u, In u (map snd segs) <-> In u urls /\ occurs u text = true)
    /\ (forall u', (forall v, In v urls -> overlaps u' v = false) ->
                   occurs u' text = true ->
                   existsb (occurs u') (plains segs last) = true).
Proof.
  induction urls as [|u urls IH] using rev_ind; intros Hnd Hclean Hpair.
  - exists [], text. split; [reflexivity|]. split; [reflexivity|].
    split; [constructor|]. split.
    + intros u. simpl. tauto.
    + intros u' _ Hocc. unfold plains. simpl. now rewrite Hocc.
  - destruct (NoDup_remove urls [] u Hnd) as [Hnd' Hnew].
    rewrite app_nil_r in Hnd', Hnew.
    destruct IH as (segs & last & Hfold & Hplain & Hsegs & Hurls & Hpending).
    + exact Hnd'.
    + intros v Hv. apply Hclean, in_or_app. now left.
    + intros v v' Hv Hv'. apply Hpair; apply in_or_app; now left.
    + assert (Hu : In u (urls ++ [u])) by (apply in_or_app; right; now left).
      assert (Hother : forall v, In v urls -> overlaps u v = false).
      { intros v Hv. apply Hpair; [exact Hu | apply in_or_app; now left |].
        intros ->. contradiction. }
      assert (Hnotin : ~ In u (map snd segs)).
      { intros H. apply Hurls in H. tauto. }
      exists (fst (wrapIn u segs last)), (snd (wrapIn u segs last)).
      split; [|split; [|split; [|split]]].
      * rewrite fold_left_app. cbn [fold_left]. rewrite Hfold.
        apply wrapFirst_render; [now apply Hclean|].
        intros w Hw. apply occurs_inside.
        -- apply Hother. now apply Hurls in Hw.
        -- intros ->. contradiction.
      * now rewrite unwrapped_wrapIn.
      * now apply NoDup_wrapIn.
      * intros v. rewrite urls_wrapIn, Hurls, in_app_iff. split.
        -- intros [[-> Hin] | [Hv Hocc]].
           ++ split; [right; now left|].
              rewrite <- Hplain. now apply plains_unwrapped.
           ++ split; [now left | exact Hocc].
        -- intros [[Hv | [<- | []]] Hocc].
           ++ right. now split.
           ++ left. split; [reflexivity|]. now apply Hpending.
      * intros u' Hu' Hocc. apply plains_wrapIn.
        -- apply Hu'. exact Hu.
        -- apply Hpending; [|exact Hocc].
           intros v Hv. apply Hu', in_or_app. now left.
Qed.

End SeparateUrls.

Section WrappedOnceEach.

Import TweetHandler.

(** C6, as the code has it. When the urls of the photos and animated
    gifs hold no dollar sign and no bracket and no two different ones
    overlap, the two media loops leave the decoded text with disjoint
    occurrences of these urls wrapped in [<>] and nothing else changed:
    each url that occurs in the text is wrapped exactly once, at an
    occurrence of the text and never inside or across another wrapped
    url, however often it occurs and however many media items carry
    it. *)
Theorem media_urls_are_wrapped_once_each
        (ee : Entities) (text : string) (x : Extraction) :
  extract (Some ee) text = Normal x ->
  separate (map url (filter visited (media ee))) = true ->
  exists segs last,
    modifiedText x = render segs last
    /\ unwrapped segs last = text
    /\ NoDup (map snd segs)
    /\ (forall u,
           In u (map snd segs)
           <-> (exists m, In m (media ee) /\ visited m = true /\ url m = u)
               /\ occurs u text = true).
Proof.
  intros Hrun Hseparate.
  destruct (extract_wrappedOnce text ee x Hrun) as ((Hnd & Htext) & Hurls).
  destruct (separate_spec _ Hseparate) as (Hclean & Hpair).
  assert (Hin : forall u, In u (escapedUrls x) ->
                          In u (map url (filter visited (media ee)))).
  { intros u Hu. apply Hurls in Hu. destruct Hu as (m & Hm & Hvisited & <-).
    apply in_map, filter_In. now split. }
  destruct (wrapFirst_all text (escapedUrls x) Hnd)
    as (segs & last & Hfold & Hplain & Hsegs & Hwrapped & _).
  - intros u Hu. apply Hclean, Hin, Hu.
  - intros u v Hu Hv. apply Hpair; apply Hin; assumption.
  - exists segs, last. split; [now rewrite Htext|].
    split; [exact Hplain|]. split; [exact Hsegs|].
    intros u. now rewrite Hwrapped, Hurls.
Qed.

Lemma media_urls_are_wrapped_once_each_witness :
  exists segs last,
    "a <https://t.co/xyz> b <https://t.co/abc> c https://t.co/abc" = render segs last
    /\ unwrapped segs last = Sample.albumText
    /\ NoDup (map snd segs).
Proof.
  destruct (media_urls_are_wrapped_once_each Sample.album Sample.albumText
              (mkExtraction
                 [mkMediaEntry None "https://pbs.twimg.com/media/a.jpg";
                  mkMediaEntry None "https://pbs.twimg.com/media/a.jpg";
                  mkMediaEntry (Some "https://video.twimg.com/b.mp4")
                               "https://pbs.twimg.com/tweet_video_thumb/b.jpg"]
                 ["https://t.co/abc"; "https://t.co/xyz"]
                 "a <https://t.co/xyz> b <https://t.co/abc> c https://t.co/abc")
              eq_refl eq_refl)
    as (segs & last & Htext & Hplain & Hsegs & _).
  exists segs, last. split; [exact Htext|]. split; [exact Hplain | exact Hsegs].
Defined.

(** The claim of C6 as the spec states it, for every media item, fails:
    with two photos of which one url is the beginning of the other,
    the second [replace] works inside the brackets of the first, and
    the longer url is left without brackets of its own. *)
Lemma overlapping_urls_are_wrapped_inside_each_other :
  ~ (forall (ee : Entities) (text : string) (x : Extraction),
        extract (Some ee) text = Normal x ->
        exists segs last,
          modifiedText x = render segs last
          /\ unwrapped segs last = text
          /\ NoDup (map snd segs)
          /\ (forall u,
                 In u (map snd segs)
                 <-> (exists m, In m (media ee) /\ visited m = true /\ url m = u)
                     /\ occurs u text = true)).
Proof.
  intros H.
  destruct (H Sample.nested Sample.nestedText
              (mkExtraction
                 [mkMediaEntry None "https://pbs.twimg.com/media/a.jpg";
                  mkMediaEntry None "https://pbs.twimg.com/media/a.jpg"]
                 ["https://t.co/abc"; "https://t.co/ab"]
                 "x <<https://t.co/ab>c> y https://t.co/abc")
              eq_refl)
    as (segs & last & Htext & _ & _ & Hwrapped).
  assert (Hin : In "https://t.co/abc" (map snd segs)).
  { apply Hwrapped. split; [|reflexivity].
    exists (Sample.photoOf "https://t.co/abc").
    split; [now left | split; reflexivity]. }
  apply (render_occurs _ segs last) in Hin.
  rewrite <- Htext in Hin. vm_compute in Hin. discriminate Hin.
Qed.

(** The text of that run. *)
Example overlapping_urls_nest_their_brackets :
  match extract (Some Sample.nested) Sample.nestedText with
  | Normal x => modifiedText x
  | _ => ""
  end
  = "x <<https://t.co/ab>c> y https://t.co/abc".
Proof. reflexivity. Qed.

End WrappedOnceEach.
